(** * renterd: the uploading-sectors cache of the bus and the scanner's paging

    A shallow embedding of [bus/uploadingsectors.go] and of the test doubles
    of [autopilot/scanner_test.go], with the properties the specification
    states about them.

    Identifiers ([api.UploadID], [types.FileContractID], [types.Hash256]) are
    fixed-size byte arrays in the source; an array is read here as the number
    its bytes encode, so the zero value of the Go type is [0].  Instants and
    durations are counted in nanoseconds, as [time.Duration] does. *)

From stdpp Require Import gmap list strings pretty.

Local Open Scope Z_scope.

(** ** Machine integers *)

(** Arithmetic on [uint64] wraps around. *)
Definition uint64 (z : Z) : Z := z mod 2 ^ 64.

(** ** Package [time] *)

Module time.

Definition Nanosecond : Z := 1.
Definition Second : Z := 1000000000 * Nanosecond.
Definition Minute : Z := 60 * Second.
Definition Hour : Z := 60 * Minute.

Definition minDuration : Z := - 2 ^ 63.
Definition maxDuration : Z := 2 ^ 63 - 1.

(** [t.Sub(u)]: the difference saturates at the ends of [Duration]. *)
Definition Sub (t u : Z) : Z := Z.max minDuration (Z.min maxDuration (t - u)).

(** [time.Since(t)] is [time.Now().Sub(t)]; the clock reading [now] is an
    explicit argument of every operation that consults the clock. *)
Definition Since (now t : Z) : Z := Sub now t.

End time.

(** ** Package [rhp] *)

Module rhp.

(** [go.sia.tech/core/rhp/v2]: [SectorSize = 1 << 22]. *)
Definition SectorSize : Z := Z.shiftl 1 22.

End rhp.

(** ** [bus/uploadingsectors.go] *)

Abbreviation UploadID := N (only parsing).
Abbreviation FileContractID := N (only parsing).
Abbreviation Hash256 := N (only parsing).

(** The zero value of [types.FileContractID], what a lookup of a missing key
    in a Go map returns. *)
Definition zeroFileContractID : FileContractID := 0%N.

Definition cacheExpiry : Z := 24 * time.Hour.

Record ongoingUpload : Type := {
  started : Z;
  contractSectors : gmap FileContractID (list Hash256)
}.

Record uploadingSectorsCache : Type := {
  uploads : gmap UploadID ongoingUpload;
  renewedFrom : gmap FileContractID FileContractID;
  renewedTo : gmap FileContractID FileContractID
}.

Inductive error : Type :=
  | ErrUnknownUpload (uID : UploadID)
  | ErrUploadAlreadyExists (uID : UploadID).

Definition newUploadingSectorsCache : uploadingSectorsCache :=
  {| uploads := ∅; renewedFrom := ∅; renewedTo := ∅ |}.

(** Methods of [*ongoingUpload]. *)
Module ou.

(** [append] on the slice of a missing key starts from the nil slice. *)
Definition addSector (o : ongoingUpload) (fcid : FileContractID)
    (root : Hash256) : ongoingUpload :=
  {| started := started o;
     contractSectors :=
       <[fcid := default [] (contractSectors o !! fcid) ++ [root]]>
         (contractSectors o) |}.

Definition sectors (now : Z) (o : ongoingUpload) (fcid : FileContractID)
    : list Hash256 :=
  match contractSectors o !! fcid with
  | Some sectors =>
      if bool_decide (time.Since now (started o) < cacheExpiry)
      then [] ++ sectors
      else []
  | None => []
  end.

End ou.

Definition fcids (usc : uploadingSectorsCache) (fcid : FileContractID)
    : FileContractID * FileContractID :=
  match renewedTo usc !! fcid with
  | Some renewed => (renewed, fcid)
  | None => (fcid, default zeroFileContractID (renewedFrom usc !! fcid))
  end.

Definition addRenewal (usc : uploadingSectorsCache)
    (fcid renewedFrom' : FileContractID) : uploadingSectorsCache :=
  let usc1 :=
    match renewedFrom usc !! renewedFrom' with
    | Some prev =>
        {| uploads := uploads usc;
           renewedFrom := delete renewedFrom' (renewedFrom usc);
           renewedTo := delete prev (renewedTo usc) |}
    | None => usc
    end in
  {| uploads := uploads usc1;
     renewedFrom := <[fcid := renewedFrom']> (renewedFrom usc1);
     renewedTo := <[renewedFrom' := fcid]> (renewedTo usc1) |}.

(** An [error] on the left, the updated cache on the right ([nil] error). *)
Definition addUploadingSector (usc : uploadingSectorsCache) (uID : UploadID)
    (fcid : FileContractID) (root : Hash256) : error + uploadingSectorsCache :=
  match uploads usc !! uID with
  | Some ongoing =>
      inr {| uploads := <[uID := ou.addSector ongoing fcid root]> (uploads usc);
             renewedFrom := renewedFrom usc;
             renewedTo := renewedTo usc |}
  | None => inl (ErrUnknownUpload uID)
  end.

(** Go ranges over a map in an order it does not specify: every arrangement
    of the entries is a possible snapshot. *)
Definition rangeOrder (usc : uploadingSectorsCache)
    (ups : list (UploadID * ongoingUpload)) : Prop :=
  ups ≡ₚ map_to_list (uploads usc).

(** The snapshot in the order [map_to_list] happens to produce. *)
Definition ongoingUploads (usc : uploadingSectorsCache) : list ongoingUpload :=
  (map_to_list (uploads usc)).*2.

(** The loop of [pending] over a snapshot, the pair of ids resolved. *)
Definition pendingOver (now : Z) (ups : list ongoingUpload)
    (fcid renewedFrom' : FileContractID) : Z :=
  foldl (λ size ongoing,
      let size :=
        uint64 (size + uint64 (uint64 (Z.of_nat (length (ou.sectors now ongoing fcid)))
                               * rhp.SectorSize)) in
      uint64 (size + uint64 (uint64 (Z.of_nat (length (ou.sectors now ongoing renewedFrom')))
                             * rhp.SectorSize)))
    0 ups.

Definition pending (usc : uploadingSectorsCache) (now : Z)
    (fcid : FileContractID) : Z :=
  let '(fcid, renewedFrom') := fcids usc fcid in
  pendingOver now (ongoingUploads usc) fcid renewedFrom'.

(** The loop of [sectors] over a snapshot. *)
Definition sectorsOver (now : Z) (ups : list ongoingUpload)
    (fcid renewedFrom' : FileContractID) : list Hash256 :=
  foldl (λ roots ongoing,
      (roots ++ ou.sectors now ongoing fcid) ++ ou.sectors now ongoing renewedFrom')
    [] ups.

Definition sectors (usc : uploadingSectorsCache) (now : Z)
    (fcid : FileContractID) : list Hash256 :=
  let '(fcid, renewedFrom') := fcids usc fcid in
  sectorsOver now (ongoingUploads usc) fcid renewedFrom'.

(** The pruning loop of [finishUpload]: one visit per entry, deleting the
    expired ones from the map being ranged over. *)
Definition pruneExpired (now : Z) (m : gmap UploadID ongoingUpload)
    : gmap UploadID ongoingUpload :=
  foldr (λ '(uID, ongoing) acc,
      if bool_decide (time.Since now (started ongoing) > cacheExpiry)
      then delete uID acc
      else acc)
    m (map_to_list m).

Definition finishUpload (usc : uploadingSectorsCache) (now : Z)
    (uID : UploadID) : uploadingSectorsCache :=
  {| uploads := pruneExpired now (delete uID (uploads usc));
     renewedFrom := renewedFrom usc;
     renewedTo := renewedTo usc |}.

Definition trackUpload (usc : uploadingSectorsCache) (now : Z)
    (uID : UploadID) : error + uploadingSectorsCache :=
  match uploads usc !! uID with
  | Some _ => inl (ErrUploadAlreadyExists uID)
  | None =>
      inr {| uploads := <[uID := {| started := now; contractSectors := ∅ |}]>
                          (uploads usc);
             renewedFrom := renewedFrom usc;
             renewedTo := renewedTo usc |}
  end.

(** *** Calls of the session lifecycle, as the workers issue them *)

Inductive sessionCall : Type :=
  | CallTrack (now : Z) (uID : UploadID)
  | CallAddSector (uID : UploadID) (fcid : FileContractID) (root : Hash256)
  | CallFinish (now : Z) (uID : UploadID).

(** A call that returns an error leaves the cache as it was. *)
Definition keep (usc : uploadingSectorsCache)
    (r : error + uploadingSectorsCache) : uploadingSectorsCache :=
  match r with inl _ => usc | inr usc' => usc' end.

Definition call (usc : uploadingSectorsCache) (c : sessionCall)
    : uploadingSectorsCache :=
  match c with
  | CallTrack now uID => keep usc (trackUpload usc now uID)
  | CallAddSector uID fcid root => keep usc (addUploadingSector usc uID fcid root)
  | CallFinish now uID => finishUpload usc now uID
  end.

Definition calls (usc : uploadingSectorsCache) (cs : list sessionCall)
    : uploadingSectorsCache :=
  foldl call usc cs.

(** [addUploadingSector] for each root in turn, stopping at the first error. *)
Fixpoint addUploadingSectors (usc : uploadingSectorsCache) (uID : UploadID)
    (fcid : FileContractID) (roots : list Hash256)
    : error + uploadingSectorsCache :=
  match roots with
  | [] => inr usc
  | root :: roots =>
      match addUploadingSector usc uID fcid root with
      | inl e => inl e
      | inr usc' => addUploadingSectors usc' uID fcid roots
      end
  end.

(** *** What a session holds *)

Definition live (now : Z) (o : ongoingUpload) : Prop :=
  time.Since now (started o) < cacheExpiry.

#[global] Instance live_dec (now : Z) (o : ongoingUpload) : Decision (live now o) :=
  Z_lt_dec (time.Since now (started o)) cacheExpiry.

Definition stored (o : ongoingUpload) (fcid : FileContractID) : list Hash256 :=
  default [] (contractSectors o !! fcid).

(** The sectors one session adds to a query that resolved to the pair
    [(fcid, renewedFrom')]. *)
Definition contribution (now : Z) (o : ongoingUpload)
    (fcid renewedFrom' : FileContractID) : list Hash256 :=
  ou.sectors now o fcid ++ ou.sectors now o renewedFrom'.

(** Number of sectors the live sessions of a snapshot store under two ids. *)
Definition liveStored (now : Z) (ups : list ongoingUpload)
    (a b : FileContractID) : nat :=
  sum_list_with (λ o, length (stored o a) + length (stored o b))%nat
    (filter (live now) ups).

(** A snapshot without the entry of one session, and the cache without it. *)
Definition others (uID : UploadID) (ups : list (UploadID * ongoingUpload))
    : list (UploadID * ongoingUpload) :=
  filter (λ kv, kv.1 ≠ uID) ups.

Definition forget (uID : UploadID) (usc : uploadingSectorsCache)
    : uploadingSectorsCache :=
  {| uploads := delete uID (uploads usc);
     renewedFrom := renewedFrom usc;
     renewedTo := renewedTo usc |}.

(** ** [autopilot/scanner_test.go] *)

Record Host : Type := {
  NetAddress : string;
  PublicKey : N
}.

Record HostAddress : Type := {
  haNetAddress : string;
  haPublicKey : N
}.

Record mockBus : Type := {
  hosts : list Host;
  reqs : list string
}.

(** Go's [int], 64 bits wide on the platforms the repository builds for:
    the largest value, and the wrap-around of a sum. *)
Definition maxInt : Z := 9223372036854775807.

Definition int (z : Z) : Z := (z + 2 ^ 63) mod 2 ^ 64 - 2 ^ 63.

(** [fmt.Sprintf("%d-%d", offset, offset+limit)]. *)
Definition fmtReq (offset limit : Z) : string :=
  pretty offset +:+ "-" +:+ pretty (int (offset + limit)).

(** The mock after one more logged request. *)
Definition logged (b : mockBus) (offset limit : Z) : mockBus :=
  {| hosts := hosts b; reqs := reqs b ++ [fmtReq offset limit] |}.

(** [b.hosts[start:end]] for [0 <= start <= end <= len(b.hosts)]. *)
Definition slice {A} (l : list A) (start end' : Z) : list A :=
  take (Z.to_nat (end' - start)) (drop (Z.to_nat start) l).

(** [mockBus.Hosts]: the request is logged first.  The result is the page,
    or [None] when the slice expression panics: it does when [start] is
    negative or [end] is below [start], which a wrapped sum can make it. *)
Definition Hosts (b : mockBus) (offset limit : Z)
    : mockBus * option (list Host) :=
  let b' := logged b offset limit in
  let start := offset in
  if bool_decide (start > Z.of_nat (length (hosts b))) then (b', Some [])
  else
    let end' := int (offset + limit) in
    let end' :=
      if bool_decide (end' > Z.of_nat (length (hosts b)))
      then Z.of_nat (length (hosts b)) else end' in
    if bool_decide (0 ≤ start ∧ start ≤ end')
    then (b', Some (slice (hosts b) start end'))
    else (b', None).

Definition hostAddress (h : Host) : HostAddress :=
  {| haNetAddress := NetAddress h; haPublicKey := PublicKey h |}.

(** A panic of [Hosts] passes through. *)
Definition HostsForScanning (b : mockBus) (offset limit : Z)
    : mockBus * option (list HostAddress) :=
  let '(b', hosts) := Hosts b offset limit in
  (b', match hosts with
       | Some hosts => Some (hostAddress <$> hosts)
       | None => None
       end).

(** [newTestScanner] sets these fields of the scanner. *)
Record scanner : Type := {
  scanBatchSize : Z;
  scanThreads : Z;
  scanMinInterval : Z
}.

Definition newTestScanner : scanner :=
  {| scanBatchSize := 40; scanThreads := 3; scanMinInterval := time.Minute |}.

(** Modelled from the spec: the paging loop of the scanner, whose source
    file [autopilot/scanner.go] is not among the sources embedded here.  The host
    listing is paged through in batches of [scanBatchSize], from offset 0 and
    advancing by one batch per request, until a page comes back shorter than
    a batch; the pages are what the worker pool is then fed, so the size of
    the pool plays no part here.  A listing that fails ends the sweep with
    the pages got so far.  [fuel] bounds the number of requests. *)
Fixpoint pageHosts (fuel : nat) (s : scanner) (b : mockBus) (offset : Z)
    : mockBus * list (list HostAddress) :=
  match fuel with
  | O => (b, [])
  | S fuel =>
      match HostsForScanning b offset (scanBatchSize s) with
      | (b', None) => (b', [])
      | (b', Some page) =>
          if bool_decide (Z.of_nat (length page) < scanBatchSize s)
          then (b', [page])
          else
            let '(b'', pages) :=
              pageHosts fuel s b' (offset + scanBatchSize s) in
            (b'', page :: pages)
      end
  end.

(** Modelled from the spec: [minRecentScanFailures], whose source file
    [autopilot/scanner.go] is not among the sources embedded here.  The result
    is 0 when the tolerated downtime is shorter than one scan interval;
    from one interval on it grows with the ratio of downtime to interval,
    five sevenths of it rounded to the nearest integer, which is one
    monotonic mapping that meets the four points of the table. *)
Definition minRecentScanFailures (scanInterval maxDowntime : Z) : Z :=
  if bool_decide (maxDowntime < scanInterval) then 0
  else (10 * maxDowntime + 7 * scanInterval) / (14 * scanInterval).

(** ** The schema migrations

    The part of the sources that sits behind [scanner_test.go]:
    [performMigrations] drives a [gorm] migrator.  The database and its
    migrator are not part of the repository; they are taken as a parameter,
    a state with read-only schema queries and with commands that change it
    and answer [nil] or an error. *)

(** What a migrator call names: the table of a model struct, or a table
    given by name. *)
Inductive tableRef : Type :=
  | dbArchivedContract | dbContract | dbContractSet | dbObject | dbSector
  | dbSlab | dbSlice | dbAnnouncement | dbConsensusInfo | dbHost
  | dbInteraction | dbAllowlistEntry | dbBlocklistEntry | dbSiacoinElement
  | dbTransaction | dbSetting | dbAccount | dbHostBlocklistEntryHost
  | tableNamed (name : string).

Inductive query : Type :=
  | HasTable (t : tableRef)
  | HasColumn (t : tableRef) (column : string)
  | HasIndex (t : tableRef) (index : string).

Inductive command : Type :=
  | DropTable (t : tableRef)
  | AddColumn (t : tableRef) (column : string)
  | DropColumn (t : tableRef) (column : string)
  | Exec (sql : string)
  | AutoMigrate (tables : list tableRef)
  | CreateIndex (t : tableRef) (index : string).

Record gormDB (db E : Type) : Type := {
  has : db → query → bool;
  exec : db → command → db * option E
}.
Arguments has {db E} _ _ _.
Arguments exec {db E} _ _ _.

(** [dbHostBlocklistEntryHost.TableName]. *)
Definition TableName_dbHostBlocklistEntryHost : string :=
  "host_blocklist_entry_hosts".

Definition newline : string := String (Ascii.ascii_of_nat 10) EmptyString.
Definition tab : string := String (Ascii.ascii_of_nat 9) EmptyString.

Definition updateSlices : string :=
  "UPDATE slices sli SET sli.db_slab_id=(" +:+ newline +:+ tab +:+ tab +:+ tab
  +:+ "SELECT sla.id FROM slabs sla WHERE sla.db_slice_id=sli.id)".

Definition updateSectors : string :=
  "UPDATE sectors sec SET sec.db_slab_id=(" +:+ newline +:+ tab +:+ tab +:+ tab
  +:+ "SELECT sha.db_slab_id FROM shards sha WHERE sha.db_sector_id=sec.id)".

(** The tables handed to [tx.AutoMigrate]. *)
Definition tables : list tableRef :=
  [dbArchivedContract; dbContract; dbContractSet; dbObject; dbSector; dbSlab;
   dbSlice;
   dbAnnouncement; dbConsensusInfo; dbHost; dbInteraction; dbAllowlistEntry;
   dbBlocklistEntry;
   dbSiacoinElement; dbTransaction;
   dbSetting;
   dbAccount].

(** The state of a migration: the database and the commands issued so far,
    each with its answer. *)
Definition migration (db E : Type) : Type := db * list (command * option E).

(** [if err := <command>; err != nil { return err }], one command after the
    other: the first error ends the run. *)
Fixpoint runAll {db E} (g : gormDB db E) (cs : list command)
    (s : migration db E) : migration db E * option E :=
  match cs with
  | [] => (s, None)
  | c :: cs =>
      let '(d', r) := exec g s.1 c in
      let s' := (d', s.2 ++ [(c, r)]) in
      match r with
      | Some err => (s', Some err)
      | None => runAll g cs s'
      end
  end.

(** The commands of the three conditional blocks, each decided by schema
    queries on the database as it is when the block is reached. *)
Definition consensusBlock {db E} (g : gormDB db E) (d : db) : list command :=
  if has g d (HasTable dbConsensusInfo)
     && negb (has g d (HasColumn dbConsensusInfo "height"))
  then [DropTable dbConsensusInfo] else [].

Definition shardsBlock {db E} (g : gormDB db E) (d : db) : list command :=
  if has g d (HasTable (tableNamed "shards"))
  then [AddColumn dbSlice "db_slab_id"; Exec updateSlices;
        AddColumn dbSector "db_slab_id"; Exec updateSectors;
        DropColumn dbSlab "db_slice_id"; DropTable (tableNamed "shards")]
  else [].

Definition indexBlock {db E} (g : gormDB db E) (d : db) : list command :=
  if negb (has g d (HasIndex dbHostBlocklistEntryHost "DBHostID"))
  then [CreateIndex dbHostBlocklistEntryHost "DBHostID"] else [].

Definition performMigrations {db E} (g : gormDB db E) (tx : db)
    : migration db E * option E :=
  let s := (tx, []) in
  match runAll g (consensusBlock g s.1) s with
  | (s, Some err) => (s, Some err)
  | (s, None) =>
      match runAll g (shardsBlock g s.1) s with
      | (s, Some err) => (s, Some err)
      | (s, None) =>
          match runAll g [AutoMigrate tables;
                          DropTable (tableNamed "host_sectors")]%list s with
          | (s, Some err) => (s, Some err)
          | (s, None) => runAll g (indexBlock g s.1) s
          end
      end
  end.

(** The commands [performMigrations] issues after the first two blocks
    whatever the schema. *)
Definition mainBlock : list command :=
  [AutoMigrate tables; DropTable (tableNamed "host_sectors")].

(** The database a run of commands leaves behind. *)
Definition dbAfter {db E} (g : gormDB db E) (cs : list command) (d : db) : db :=
  (runAll g cs (d, [])).1.1.

(** A database for examples: a set of table names, which [DropTable]
    shrinks; [AutoMigrate] fails when [broken] is set. *)
Definition toyDB (broken : bool) : gormDB (list string) string :=
  {| has := λ d q,
       match q with
       | HasTable (tableNamed n) => bool_decide (n ∈ d)
       | _ => false
       end;
     exec := λ d c,
       match c with
       | DropTable (tableNamed n) => (filter (λ x, x ≠ n) d, None)
       | AutoMigrate _ =>
           (d, if broken then Some "migration failed"%string else None)
       | _ => (d, None)
       end |}.

(** ** Further notions for the cache *)

(** The pruning loop of [finishUpload] when the range over the map visits
    the entries [visits], last one first. *)
Definition pruneOver (now : Z) (visits : list (UploadID * ongoingUpload))
    (m : gmap UploadID ongoingUpload) : gmap UploadID ongoingUpload :=
  foldr (λ '(uID, ongoing) acc,
      if bool_decide (time.Since now (started ongoing) > cacheExpiry)
      then delete uID acc
      else acc)
    m visits.

(** The two renewal maps mirror each other. *)
Definition renewalsInverse (usc : uploadingSectorsCache) : Prop :=
  ∀ a b, renewedFrom usc !! b = Some a ↔ renewedTo usc !! a = Some b.

(** How many of the two ids of a resolved pair are [fcid]. *)
Definition hits (fcid : FileContractID) (pair : FileContractID * FileContractID)
    : nat :=
  ((if decide (pair.1 = fcid) then 1 else 0)
   + (if decide (pair.2 = fcid) then 1 else 0))%nat.

(** * Properties *)

(** ** Arithmetic and the clock *)

Lemma uint64_add_l (a b : Z) : uint64 (uint64 a + b) = uint64 (a + b).
Proof. unfold uint64. apply Zplus_mod_idemp_l. Qed.

Lemma uint64_add_r (a b : Z) : uint64 (a + uint64 b) = uint64 (a + b).
Proof. unfold uint64. apply Zplus_mod_idemp_r. Qed.

Lemma uint64_mul_l (a b : Z) : uint64 (uint64 a * b) = uint64 (a * b).
Proof. unfold uint64. apply Zmult_mod_idemp_l. Qed.

Lemma uint64_idemp (a : Z) : uint64 (uint64 a) = uint64 a.
Proof. unfold uint64. apply Zmod_mod. Qed.

Lemma uint64_small (a : Z) : 0 ≤ a < 2 ^ 64 → uint64 a = a.
Proof. intros H. unfold uint64. by apply Z.mod_small. Qed.

Lemma cacheExpiry_val : cacheExpiry = 86400000000000.
Proof. reflexivity. Qed.

(** The clock does not run backwards: a session expired at one reading is
    expired at every later one. *)
Lemma Since_mono (now now' t : Z) :
  now ≤ now' → time.Since now t ≤ time.Since now' t.
Proof. unfold time.Since, time.Sub. lia. Qed.

Lemma expired_not_live (now : Z) (o : ongoingUpload) :
  time.Since now (started o) > cacheExpiry → ¬ live now o.
Proof. unfold live. lia. Qed.

(** ** One session *)

Lemma ou_sectors_stored (now : Z) (o : ongoingUpload) (fcid : FileContractID) :
  ou.sectors now o fcid = if decide (live now o) then stored o fcid else [].
Proof.
  unfold ou.sectors, stored, live.
  destruct (contractSectors o !! fcid) as [l|]; simpl.
  - case_bool_decide; case_decide; done || lia.
  - by case_decide.
Qed.

Lemma ou_sectors_live (now : Z) (o : ongoingUpload) (fcid : FileContractID) :
  live now o → ou.sectors now o fcid = stored o fcid.
Proof. intros H. rewrite ou_sectors_stored. by case_decide. Qed.

Lemma ou_sectors_not_live (now : Z) (o : ongoingUpload) (fcid : FileContractID) :
  ¬ live now o → ou.sectors now o fcid = [].
Proof. intros H. rewrite ou_sectors_stored. by case_decide. Qed.

Lemma contribution_not_live (now : Z) (o : ongoingUpload) (f r : FileContractID) :
  ¬ live now o → contribution now o f r = [].
Proof. intros H. unfold contribution. by rewrite !ou_sectors_not_live. Qed.

Lemma stored_addSector (o : ongoingUpload) (fcid : FileContractID) (root : Hash256) :
  stored (ou.addSector o fcid root) fcid = stored o fcid ++ [root].
Proof. unfold stored, ou.addSector; simpl. by rewrite lookup_insert_eq. Qed.

Lemma stored_addSector_ne (o : ongoingUpload) (fcid fcid' : FileContractID)
    (root : Hash256) :
  fcid ≠ fcid' → stored (ou.addSector o fcid root) fcid' = stored o fcid'.
Proof. intros H. unfold stored, ou.addSector; simpl. by rewrite lookup_insert_ne. Qed.

(** ** The two loops over a snapshot *)

Lemma sectorsOver_bind (now : Z) (ups : list ongoingUpload) (f r : FileContractID) :
  sectorsOver now ups f r = ups ≫= (λ o, contribution now o f r).
Proof.
  unfold sectorsOver.
  assert (∀ acc, foldl (λ roots ongoing,
      (roots ++ ou.sectors now ongoing f) ++ ou.sectors now ongoing r) acc ups
    = acc ++ (ups ≫= (λ o, contribution now o f r))) as ->; [|done].
  induction ups as [|o ups IH]; intros acc; simpl.
  - by rewrite app_nil_r.
  - rewrite IH. unfold contribution. by rewrite <- !(assoc_L (++)).
Qed.

Lemma sectorsOver_app (now : Z) (ups1 ups2 : list ongoingUpload)
    (f r : FileContractID) :
  sectorsOver now (ups1 ++ ups2) f r
  = sectorsOver now ups1 f r ++ sectorsOver now ups2 f r.
Proof. rewrite !sectorsOver_bind. apply bind_app. Qed.

Lemma sectorsOver_cons (now : Z) (o : ongoingUpload) (ups : list ongoingUpload)
    (f r : FileContractID) :
  sectorsOver now (o :: ups) f r = contribution now o f r ++ sectorsOver now ups f r.
Proof. by rewrite !sectorsOver_bind. Qed.

Lemma sectorsOver_length (now : Z) (ups : list ongoingUpload) (f r : FileContractID) :
  length (sectorsOver now ups f r)
  = sum_list_with (λ o, length (contribution now o f r)) ups.
Proof.
  induction ups as [|o ups IH]; [done|].
  rewrite sectorsOver_cons, length_app, IH. done.
Qed.

Lemma pendingOver_sum (now : Z) (ups : list ongoingUpload) (f r : FileContractID) :
  pendingOver now ups f r
  = uint64 (Z.of_nat (sum_list_with (λ o, length (contribution now o f r)) ups)
            * rhp.SectorSize).
Proof.
  unfold pendingOver.
  match goal with |- foldl ?step _ _ = _ => set (loop := foldl step) end.
  assert (∀ acc, acc = uint64 acc → loop acc ups = uint64 (loop acc ups)) as Hwrap.
  { subst loop. induction ups as [|o ups IH]; intros acc Hacc; simpl.
    - done.
    - apply IH. by rewrite uint64_idemp. }
  rewrite Hwrap by done. clear Hwrap.
  rewrite <- (Z.add_0_l (_ * rhp.SectorSize)).
  subst loop. generalize 0. induction ups as [|o ups IH]; intros acc; simpl.
  - f_equal. lia.
  - rewrite IH, !uint64_mul_l, !uint64_add_r, uint64_add_l.
    rewrite <- (Z.add_assoc (uint64 _)), uint64_add_l.
    unfold contribution. rewrite length_app. f_equal. lia.
Qed.

Lemma pendingOver_Permutation (now : Z) (ups ups' : list ongoingUpload)
    (f r : FileContractID) :
  ups ≡ₚ ups' → pendingOver now ups f r = pendingOver now ups' f r.
Proof. intros H. rewrite !pendingOver_sum. by rewrite H. Qed.

Lemma sectorsOver_Permutation (now : Z) (ups ups' : list ongoingUpload)
    (f r : FileContractID) :
  ups ≡ₚ ups' → sectorsOver now ups f r ≡ₚ sectorsOver now ups' f r.
Proof. intros H. rewrite !sectorsOver_bind. by rewrite H. Qed.

(** ** The map of sessions *)

(** The pruning loop visits the snapshot of the entries; what survives is
    what was there and is not expired, whatever the order of the visits. *)
Lemma pruneLoop_lookup (now : Z) (l : list (UploadID * ongoingUpload))
    (m : gmap UploadID ongoingUpload) (k : UploadID) (o : ongoingUpload) :
  foldr (λ '(uID, ongoing) acc,
      if bool_decide (time.Since now (started ongoing) > cacheExpiry)
      then delete uID acc
      else acc) m l !! k = Some o
  ↔ m !! k = Some o
    ∧ ∀ o', (k, o') ∈ l → ¬ time.Since now (started o') > cacheExpiry.
Proof.
  induction l as [|[u o1] l IH]; simpl.
  - split; [intros H; split; [done|] | by intros [H _]].
    intros o' Hin. by apply elem_of_nil in Hin.
  - case_bool_decide as Hexp.
    + rewrite lookup_delete_Some, IH. split.
      * intros (Hne & Hm & Hl). split; [done|].
        intros o' [Heq|Hin]%elem_of_cons; [congruence | by apply Hl].
      * intros (Hm & Hl). split_and!; [|done|].
        -- intros ->. apply (Hl o1); [by left | done].
        -- intros o' Hin. apply Hl. by right.
    + rewrite IH. split.
      * intros (Hm & Hl). split; [done|].
        intros o' [Heq|Hin]%elem_of_cons; [congruence | by apply Hl].
      * intros (Hm & Hl). split; [done|].
        intros o' Hin. apply Hl. by right.
Qed.

Lemma pruneExpired_lookup_Some (now : Z) (m : gmap UploadID ongoingUpload)
    (k : UploadID) (o : ongoingUpload) :
  pruneExpired now m !! k = Some o
  ↔ m !! k = Some o ∧ ¬ time.Since now (started o) > cacheExpiry.
Proof.
  unfold pruneExpired. rewrite pruneLoop_lookup. split.
  - intros (Hm & Hl). split; [done|]. apply Hl. by apply elem_of_map_to_list.
  - intros (Hm & Hexp). split; [done|].
    intros o' Hin%elem_of_map_to_list. congruence.
Qed.

Lemma pruneExpired_filter (now : Z) (m : gmap UploadID ongoingUpload) :
  pruneExpired now m
  = filter (λ kv, ¬ time.Since now (started kv.2) > cacheExpiry) m.
Proof.
  apply map_eq; intros k. apply option_eq; intros o.
  by rewrite pruneExpired_lookup_Some, map_lookup_filter_Some.
Qed.

Lemma finishUpload_lookup_Some (usc : uploadingSectorsCache) (now : Z)
    (uID k : UploadID) (o : ongoingUpload) :
  uploads (finishUpload usc now uID) !! k = Some o
  ↔ k ≠ uID ∧ uploads usc !! k = Some o
    ∧ ¬ time.Since now (started o) > cacheExpiry.
Proof.
  unfold finishUpload; simpl.
  rewrite pruneExpired_lookup_Some, lookup_delete_Some.
  split; [intros [[Hne Hm] Hexp] | intros (Hne & Hm & Hexp)]; auto.
Qed.

Lemma finishUpload_lookup_self (usc : uploadingSectorsCache) (now : Z)
    (uID : UploadID) :
  uploads (finishUpload usc now uID) !! uID = None.
Proof.
  apply eq_None_not_Some. intros [o Ho].
  apply finishUpload_lookup_Some in Ho. by destruct Ho.
Qed.

(** ** Snapshots *)

Lemma rangeOrder_canonical (usc : uploadingSectorsCache) :
  rangeOrder usc (map_to_list (uploads usc)).
Proof. unfold rangeOrder. reflexivity. Qed.

Lemma rangeOrder_lookup (usc : uploadingSectorsCache)
    (ups : list (UploadID * ongoingUpload)) (k : UploadID) (o : ongoingUpload) :
  rangeOrder usc ups → (k, o) ∈ ups ↔ uploads usc !! k = Some o.
Proof. intros H. rewrite H. apply elem_of_map_to_list. Qed.

Lemma rangeOrder_NoDup (usc : uploadingSectorsCache)
    (ups : list (UploadID * ongoingUpload)) :
  rangeOrder usc ups → NoDup ups.*1.
Proof. intros H. rewrite H. apply NoDup_fst_map_to_list. Qed.

Lemma rangeOrder_snd (usc : uploadingSectorsCache)
    (ups : list (UploadID * ongoingUpload)) :
  rangeOrder usc ups → ups.*2 ≡ₚ ongoingUploads usc.
Proof. intros H. unfold ongoingUploads. by rewrite H. Qed.

Lemma rangeOrder_others (usc : uploadingSectorsCache)
    (ups : list (UploadID * ongoingUpload)) (uID : UploadID) :
  rangeOrder usc ups → rangeOrder (forget uID usc) (others uID ups).
Proof.
  intros H. unfold rangeOrder, others, forget; simpl.
  apply NoDup_Permutation.
  - apply NoDup_filter. rewrite H. apply NoDup_map_to_list.
  - apply NoDup_map_to_list.
  - intros [k o]. rewrite list_elem_of_filter, elem_of_map_to_list,
      lookup_delete_Some, H, elem_of_map_to_list; simpl.
    split; intros [Hne Hm]; split; congruence.
Qed.

(** A snapshot splits at the entry of a tracked session; the session occurs
    nowhere else in it. *)
Lemma rangeOrder_split (usc : uploadingSectorsCache)
    (ups : list (UploadID * ongoingUpload)) (uID : UploadID) (o : ongoingUpload) :
  rangeOrder usc ups → uploads usc !! uID = Some o →
  ∃ before after, ups = before ++ (uID, o) :: after
    ∧ (uID ∉ before.*1) ∧ (uID ∉ after.*1).
Proof.
  intros H Hu.
  assert ((uID, o) ∈ ups) as Hin by by apply (rangeOrder_lookup usc).
  destruct (list_elem_of_split _ _ Hin) as (before & after & ->).
  exists before, after. split; [done|].
  apply rangeOrder_NoDup in H.
  rewrite fmap_app, fmap_cons in H. simpl in H.
  apply NoDup_app in H as (_ & Hba & Ha).
  apply NoDup_cons in Ha as (Ha & _). split; [|done].
  intros Hb. apply (Hba _ Hb). by left.
Qed.

Lemma others_notin (uID : UploadID) (ups : list (UploadID * ongoingUpload)) :
  uID ∉ (ups.*1) → others uID ups = ups.
Proof.
  unfold others. induction ups as [|[k o] ups IH]; [done|].
  rewrite fmap_cons, not_elem_of_cons; simpl. intros [Hne Hnin].
  rewrite filter_cons_True by (simpl; congruence). by rewrite IH.
Qed.

Lemma others_split (uID : UploadID) (o : ongoingUpload)
    (before after : list (UploadID * ongoingUpload)) :
  uID ∉ (before.*1) → uID ∉ (after.*1) →
  others uID (before ++ (uID, o) :: after) = before ++ after.
Proof.
  intros Hb Ha. unfold others.
  rewrite filter_app, filter_cons_False by (simpl; intros H; by apply H).
  fold (others uID before) (others uID after).
  by rewrite !others_notin.
Qed.

(** ** Renewals *)

Lemma fcids_has (usc : uploadingSectorsCache) (fcid : FileContractID) :
  (fcids usc fcid).1 = fcid ∨ (fcids usc fcid).2 = fcid.
Proof. unfold fcids. destruct (renewedTo usc !! fcid); simpl; auto. Qed.

Lemma fcids_maps (usc usc' : uploadingSectorsCache) (fcid : FileContractID) :
  renewedFrom usc' = renewedFrom usc → renewedTo usc' = renewedTo usc →
  fcids usc' fcid = fcids usc fcid.
Proof. intros H1 H2. unfold fcids. by rewrite H1, H2. Qed.

Lemma call_renewals (usc : uploadingSectorsCache) (c : sessionCall) :
  renewedFrom (call usc c) = renewedFrom usc
  ∧ renewedTo (call usc c) = renewedTo usc.
Proof.
  destruct c as [now uID | uID fcid root | now uID]; simpl.
  - unfold trackUpload. by destruct (uploads usc !! uID).
  - unfold addUploadingSector. by destruct (uploads usc !! uID).
  - done.
Qed.

Lemma calls_renewals (cs : list sessionCall) (usc : uploadingSectorsCache) :
  renewedFrom (calls usc cs) = renewedFrom usc
  ∧ renewedTo (calls usc cs) = renewedTo usc.
Proof.
  unfold calls. revert usc. induction cs as [|c cs IH]; intros usc; simpl; [done|].
  destruct (IH (call usc c)) as [-> ->]. apply call_renewals.
Qed.


Lemma addRenewal_renewedFrom (usc : uploadingSectorsCache) (fcid rf : FileContractID) :
  renewedFrom (addRenewal usc fcid rf) !! fcid = Some rf.
Proof. unfold addRenewal; simpl. apply lookup_insert_eq. Qed.


(** ** The claims about the cache *)

(** C10. For every cache, clock reading and contract id, [pending] is the
    sector size times the number of roots [sectors] returns for the same id
    (the product taken on [uint64], as the sum in [pending] is; below 2^64
    it is the plain product): both walk the same sessions with the same
    resolved pair of ids. *)
Theorem pending_is_sector_count (usc : uploadingSectorsCache) (now : Z)
    (fcid : FileContractID) :
  pending usc now fcid
  = uint64 (Z.of_nat (length (sectors usc now fcid)) * rhp.SectorSize)
  ∧ (Z.of_nat (length (sectors usc now fcid)) * rhp.SectorSize < 2 ^ 64 →
     pending usc now fcid
     = Z.of_nat (length (sectors usc now fcid)) * rhp.SectorSize).
Proof.
  assert (pending usc now fcid
          = uint64 (Z.of_nat (length (sectors usc now fcid)) * rhp.SectorSize))
    as Heq.
  { unfold pending, sectors. destruct (fcids usc fcid) as [f r].
    by rewrite pendingOver_sum, sectorsOver_length. }
  split; [done|]. intros Hsmall. rewrite Heq. apply uint64_small.
  split; [|done]. apply Z.mul_nonneg_nonneg; [lia|done].
Qed.

(** The same holds whatever two orders the two calls range the map in. *)
Lemma pending_is_sector_count_any_order (usc : uploadingSectorsCache) (now : Z)
    (ups ups' : list (UploadID * ongoingUpload)) (f r : FileContractID) :
  rangeOrder usc ups → rangeOrder usc ups' →
  pendingOver now ups.*2 f r
  = uint64 (Z.of_nat (length (sectorsOver now ups'.*2 f r)) * rhp.SectorSize).
Proof.
  intros H H'. rewrite pendingOver_sum, sectorsOver_length.
  by rewrite (rangeOrder_snd _ _ H), (rangeOrder_snd _ _ H').
Qed.

(** C2. [addUploadingSector] returns the unknown-upload error exactly when
    the id is not a key of [uploads], which is the case in a new cache and
    after [finishUpload] of that id, and returns no error otherwise;
    [trackUpload] returns the already-exists error exactly when the id is a
    key of [uploads], as it is after a successful [trackUpload], and returns
    no error otherwise. *)
Theorem session_lifecycle_errors (usc : uploadingSectorsCache) (now : Z)
    (uID : UploadID) (fcid : FileContractID) (root : Hash256) :
  (addUploadingSector usc uID fcid root = inl (ErrUnknownUpload uID)
     ↔ uploads usc !! uID = None)
  ∧ ((∃ usc', addUploadingSector usc uID fcid root = inr usc')
     ↔ is_Some (uploads usc !! uID))
  ∧ (trackUpload usc now uID = inl (ErrUploadAlreadyExists uID)
     ↔ is_Some (uploads usc !! uID))
  ∧ ((∃ usc', trackUpload usc now uID = inr usc')
     ↔ uploads usc !! uID = None)
  ∧ uploads newUploadingSectorsCache !! uID = None
  ∧ uploads (finishUpload usc now uID) !! uID = None
  ∧ (∀ usc', trackUpload usc now uID = inr usc' → is_Some (uploads usc' !! uID)).
Proof.
  unfold addUploadingSector, trackUpload.
  split_and!.
  - destruct (uploads usc !! uID); split; done.
  - destruct (uploads usc !! uID) as [o|]; split.
    + by eexists.
    + by eexists.
    + by intros [? ?].
    + by intros [? ?].
  - destruct (uploads usc !! uID) as [o|]; split.
    + by eexists.
    + done.
    + done.
    + by intros [? ?].
  - destruct (uploads usc !! uID) as [o|]; split.
    + by intros [? ?].
    + done.
    + done.
    + by eexists.
  - apply lookup_empty.
  - apply finishUpload_lookup_self.
  - destruct (uploads usc !! uID) as [o|]; [done|].
    intros usc' [= <-]; simpl. rewrite lookup_insert_eq. by eexists.
Qed.

(** C4. From a new cache, [addRenewal B A] followed by [addRenewal C B]
    leaves [renewedFrom] with the single entry C -> B and [renewedTo] with
    the single entry B -> C: the entries of A are deleted by the second
    call. *)
Theorem renewal_chain_pruned (A B C : FileContractID) :
  let usc := addRenewal (addRenewal newUploadingSectorsCache B A) C B in
  renewedFrom usc = {[C := B]} ∧ renewedTo usc = {[B := C]}
  ∧ size (renewedFrom usc) = 1%nat ∧ size (renewedTo usc) = 1%nat.
Proof.
  assert (renewedFrom (addRenewal (addRenewal newUploadingSectorsCache B A) C B)
            = {[C := B]}
          ∧ renewedTo (addRenewal (addRenewal newUploadingSectorsCache B A) C B)
            = {[B := C]}) as [H1 H2].
  { unfold addRenewal at 1 3. rewrite addRenewal_renewedFrom; simpl.
    rewrite lookup_empty; simpl.
    rewrite insert_empty, delete_singleton_eq.
    rewrite (insert_empty A B), delete_singleton_eq.
    by rewrite !insert_empty. }
  cbv zeta. rewrite H1, H2, !map_size_singleton. done.
Qed.

(** *** Sessions inside a snapshot *)

Lemma sectorsOver_split (now : Z) (before after : list (UploadID * ongoingUpload))
    (uID : UploadID) (o : ongoingUpload) (f r : FileContractID) :
  sectorsOver now (before ++ (uID, o) :: after).*2 f r
  = sectorsOver now before.*2 f r ++ contribution now o f r
      ++ sectorsOver now after.*2 f r.
Proof. by rewrite fmap_app, fmap_cons, sectorsOver_app, sectorsOver_cons. Qed.

Lemma sectorsOver_not_live (now : Z) (ups : list ongoingUpload)
    (f r : FileContractID) :
  (∀ o, o ∈ ups → ¬ live now o) → sectorsOver now ups f r = [].
Proof.
  induction ups as [|o ups IH]; intros H; [done|].
  rewrite sectorsOver_cons, contribution_not_live, IH; [done| |].
  - intros o' Ho'. apply H. by right.
  - apply H. by left.
Qed.

Lemma pendingOver_sectorsOver (now : Z) (ups : list ongoingUpload)
    (f r : FileContractID) :
  pendingOver now ups f r
  = uint64 (Z.of_nat (length (sectorsOver now ups f r)) * rhp.SectorSize).
Proof. by rewrite pendingOver_sum, sectorsOver_length. Qed.

Lemma contribution_liveStored (now : Z) (ups : list ongoingUpload)
    (f r : FileContractID) :
  sum_list_with (λ o, length (contribution now o f r)) ups
  = liveStored now ups f r.
Proof.
  unfold liveStored. induction ups as [|o ups IH]; [done|].
  simpl. rewrite IH. unfold contribution.
  rewrite filter_cons. destruct (decide (live now o)) as [Hl|Hl].
  - by rewrite !ou_sectors_live, length_app by done.
  - by rewrite !ou_sectors_not_live by done.
Qed.

(** What [finishUpload] leaves is a snapshot of the cache before it from
    which the finished session and the expired ones are gone. *)
Lemma finishUpload_snapshot (usc : uploadingSectorsCache) (now : Z)
    (uID : UploadID) (ups' : list (UploadID * ongoingUpload)) :
  rangeOrder (finishUpload usc now uID) ups' →
  ∃ gone, rangeOrder usc (ups' ++ gone) ∧ (uID ∉ ups'.*1)
    ∧ ∀ k o, (k, o) ∈ gone →
        k = uID ∨ time.Since now (started o) > cacheExpiry.
Proof.
  intros H.
  set (kept := λ kv : UploadID * ongoingUpload,
         kv.1 ≠ uID ∧ ¬ time.Since now (started kv.2) > cacheExpiry).
  exists (filter (λ kv, ¬ kept kv) (map_to_list (uploads usc))).
  split_and!.
  - unfold rangeOrder.
    trans (filter kept (map_to_list (uploads usc))
           ++ filter (λ kv, ¬ kept kv) (map_to_list (uploads usc)));
      [|apply filter_app_complement].
    apply Permutation_app_tail. rewrite H.
    apply NoDup_Permutation.
    + apply NoDup_map_to_list.
    + apply NoDup_filter, NoDup_map_to_list.
    + intros [k o]. rewrite list_elem_of_filter, !elem_of_map_to_list,
        finishUpload_lookup_Some. unfold kept; simpl. tauto.
  - intros Hin. apply list_elem_of_fmap in Hin as ([k o] & -> & Hin).
    apply (rangeOrder_lookup _ _ _ _ H) in Hin.
    rewrite finishUpload_lookup_self in Hin. done.
  - intros k o [Hk _]%list_elem_of_filter. unfold kept in Hk; simpl in Hk.
    destruct (decide (k = uID)); [by left|]. right.
    destruct (decide (time.Since now (started o) > cacheExpiry)); [done|].
    exfalso. by apply Hk.
Qed.

(** *** A run of appends *)

Lemma addUploadingSectors_tracked (hs : list Hash256) (usc : uploadingSectorsCache)
    (uID : UploadID) (fcid : FileContractID) (o : ongoingUpload) :
  uploads usc !! uID = Some o →
  ∃ usc' o', addUploadingSectors usc uID fcid hs = inr usc'
    ∧ uploads usc' !! uID = Some o'
    ∧ started o' = started o
    ∧ stored o' fcid = stored o fcid ++ hs
    ∧ (∀ x, x ≠ fcid → stored o' x = stored o x)
    ∧ renewedFrom usc' = renewedFrom usc
    ∧ renewedTo usc' = renewedTo usc.
Proof.
  revert usc o. induction hs as [|h hs IH]; intros usc o Hu; simpl.
  - exists usc, o. by rewrite app_nil_r.
  - unfold addUploadingSector. rewrite Hu.
    edestruct (IH {| uploads := <[uID := ou.addSector o fcid h]> (uploads usc);
                     renewedFrom := renewedFrom usc;
                     renewedTo := renewedTo usc |} (ou.addSector o fcid h))
      as (usc' & o' & Hrun & Hu' & Hst & Hsec & Hoth & Hrf & Hrt).
    { simpl. apply lookup_insert_eq. }
    exists usc', o'. split_and!; try done.
    + by rewrite Hsec, stored_addSector, <- (assoc_L (++)).
    + intros x Hx. rewrite Hoth by done. by apply stored_addSector_ne.
Qed.

(** *** The scenario of [TestUploadingSectorsCache]

    One upload across a renewal, a second renewal, a second upload, and
    the two uploads finishing in turn: 4, 4, 6, 4 and 0 sectors pending. *)
Example TestUploadingSectorsCache_pending :
  let fcid1 := 1%N in let fcid2 := 2%N in let fcid3 := 3%N in
  let c1 := calls newUploadingSectorsCache
              [CallTrack 0 1%N; CallAddSector 1%N fcid1 1%N;
               CallAddSector 1%N fcid1 2%N] in
  let c2 := calls (addRenewal c1 fcid2 fcid1)
              [CallAddSector 1%N fcid2 3%N; CallAddSector 1%N fcid2 4%N] in
  let c3 := calls (addRenewal c2 fcid3 fcid2)
              [CallTrack 0 2%N; CallAddSector 2%N fcid2 1%N;
               CallAddSector 2%N fcid2 2%N; CallAddSector 2%N fcid3 3%N;
               CallAddSector 2%N fcid3 4%N] in
  let c4 := finishUpload c3 0 1%N in
  let c5 := finishUpload c4 0 2%N in
  pending c2 0 fcid1 = 4 * rhp.SectorSize
  ∧ pending c2 0 fcid2 = 4 * rhp.SectorSize
  ∧ length (sectors c2 0 fcid1) = 4%nat
  ∧ length (sectors c2 0 fcid2) = 4%nat
  ∧ size (renewedFrom c3) = 1%nat ∧ size (renewedTo c3) = 1%nat
  ∧ pending c3 0 fcid2 = 6 * rhp.SectorSize
  ∧ pending c3 0 fcid3 = 6 * rhp.SectorSize
  ∧ pending c4 0 fcid2 = 4 * rhp.SectorSize
  ∧ pending c4 0 fcid3 = 4 * rhp.SectorSize
  ∧ pending c5 0 fcid2 = 0
  ∧ pending c5 0 fcid3 = 0.
Proof. vm_compute. repeat split. Qed.

(** C6. A session that started more than 24 hours before the clock reading
    of a query, and still sits in [uploads], counts as empty: its own
    [sectors] returns nothing for every id, it adds 0 to [pending], and both
    queries answer as they would with the session struck from the snapshot
    they range over, whatever the order of that snapshot. *)
Theorem expired_session_reads_empty (usc : uploadingSectorsCache) (now : Z)
    (uID : UploadID) (o : ongoingUpload) :
  uploads usc !! uID = Some o →
  time.Since now (started o) > cacheExpiry →
  (∀ fcid, ou.sectors now o fcid = [])
  ∧ (∀ f r, pendingOver now [o] f r = 0)
  ∧ (∀ fcid, pending usc now fcid = pending (forget uID usc) now fcid)
  ∧ (∀ fcid ups, rangeOrder usc ups →
       sectorsOver now ups.*2 (fcids usc fcid).1 (fcids usc fcid).2
       = sectorsOver now (others uID ups).*2 (fcids usc fcid).1 (fcids usc fcid).2).
Proof.
  intros Hu Hexp. apply expired_not_live in Hexp.
  assert (∀ f r ups, rangeOrder usc ups →
            sectorsOver now ups.*2 f r = sectorsOver now (others uID ups).*2 f r)
    as Hsec.
  { intros f r ups Hups.
    destruct (rangeOrder_split _ _ _ _ Hups Hu) as (before & after & -> & Hb & Ha).
    rewrite others_split by done.
    rewrite sectorsOver_split, contribution_not_live by done.
    by rewrite fmap_app, sectorsOver_app. }
  split_and!.
  - intros fcid. by apply ou_sectors_not_live.
  - intros f r. rewrite pendingOver_sectorsOver, sectorsOver_cons.
    by rewrite contribution_not_live.
  - intros fcid. unfold pending.
    rewrite (fcids_maps usc (forget uID usc)) by done.
    destruct (fcids usc fcid) as [f r].
    rewrite (pendingOver_Permutation now (ongoingUploads (forget uID usc))
               (others uID (map_to_list (uploads usc))).*2).
    + rewrite !pendingOver_sectorsOver. unfold ongoingUploads.
      by rewrite (Hsec f r _ (rangeOrder_canonical usc)).
    + symmetry. apply rangeOrder_snd, rangeOrder_others, rangeOrder_canonical.
  - intros fcid ups Hups. by apply Hsec.
Qed.

(** C7. [finishUpload] of a tracked session at clock reading [now] removes
    the session, keeps every other session that is not expired at [now] as
    it was, removes every session that is, and leaves the renewal maps
    alone.  A query at a later reading [now'] then answers as the query on
    the cache before the call would with the finished session struck from
    the snapshot it ranges over: [pending] drops by that session's sectors,
    and every list [sectors] can return is one the earlier cache could
    return with that session left out. *)
Theorem finishUpload_frame (usc : uploadingSectorsCache) (now now' : Z)
    (uID : UploadID) (o : ongoingUpload) :
  uploads usc !! uID = Some o →
  now ≤ now' →
  uploads (finishUpload usc now uID) !! uID = None
  ∧ (∀ k o', k ≠ uID → uploads usc !! k = Some o' →
       ¬ time.Since now (started o') > cacheExpiry →
       uploads (finishUpload usc now uID) !! k = Some o')
  ∧ (∀ k o', uploads usc !! k = Some o' →
       time.Since now (started o') > cacheExpiry →
       uploads (finishUpload usc now uID) !! k = None)
  ∧ (∀ fcid, fcids (finishUpload usc now uID) fcid = fcids usc fcid)
  ∧ (∀ fcid ups', rangeOrder (finishUpload usc now uID) ups' →
       ∃ ups, rangeOrder usc ups
         ∧ sectorsOver now' ups'.*2 (fcids usc fcid).1 (fcids usc fcid).2
           = sectorsOver now' (others uID ups).*2
               (fcids usc fcid).1 (fcids usc fcid).2)
  ∧ (∀ fcid, pending (finishUpload usc now uID) now' fcid
             = pending (forget uID usc) now' fcid)
  ∧ (∀ fcid, pending usc now' fcid
             = uint64 (pending (finishUpload usc now uID) now' fcid
                       + Z.of_nat (length (contribution now' o
                             (fcids usc fcid).1 (fcids usc fcid).2))
                         * rhp.SectorSize)).
Proof.
  intros Hu Hle.
  assert (∀ f r ups', rangeOrder (finishUpload usc now uID) ups' →
            ∃ ups, rangeOrder usc ups
              ∧ sectorsOver now' ups'.*2 f r
                = sectorsOver now' (others uID ups).*2 f r) as Hsec.
  { intros f r ups' Hups'.
    destruct (finishUpload_snapshot _ _ _ _ Hups') as (gone & Hall & Hnin & Hgone).
    exists (ups' ++ gone). split; [done|].
    unfold others. rewrite filter_app. fold (others uID ups') (others uID gone).
    rewrite others_notin, fmap_app, sectorsOver_app by done.
    rewrite (sectorsOver_not_live now' (others uID gone).*2), app_nil_r; [done|].
    intros o' ([k o''] & -> & Hin)%list_elem_of_fmap.
    apply list_elem_of_filter in Hin as [Hk Hin]; simpl in *.
    destruct (Hgone _ _ Hin) as [->|Hexp]; [done|].
    apply expired_not_live. pose proof (Since_mono now now' (started o'') Hle). lia. }
  assert (∀ fcid, pending (finishUpload usc now uID) now' fcid
                  = pending (forget uID usc) now' fcid) as Hpend.
  { intros fcid. unfold pending.
    rewrite (fcids_maps usc (finishUpload usc now uID)) by done.
    rewrite (fcids_maps usc (forget uID usc)) by done.
    destruct (fcids usc fcid) as [f r].
    destruct (Hsec f r _ (rangeOrder_canonical (finishUpload usc now uID)))
      as (ups & Hups & Heq).
    rewrite (pendingOver_Permutation now' (ongoingUploads (forget uID usc))
               (others uID ups).*2).
    - rewrite !pendingOver_sectorsOver. unfold ongoingUploads. by rewrite Heq.
    - symmetry. by apply rangeOrder_snd, rangeOrder_others. }
  split_and!.
  - apply finishUpload_lookup_self.
  - intros k o' Hne Hk Hexp. by apply finishUpload_lookup_Some.
  - intros k o' Hk Hexp. apply eq_None_not_Some. intros [o'' Ho''].
    apply finishUpload_lookup_Some in Ho'' as (_ & Hk' & Hexp').
    congruence.
  - intros fcid. by apply fcids_maps.
  - intros fcid ups' Hups'. by apply Hsec.
  - done.
  - intros fcid. rewrite Hpend. unfold pending.
    rewrite (fcids_maps usc (forget uID usc)) by done.
    destruct (fcids usc fcid) as [f r]; simpl.
    rewrite (pendingOver_Permutation now' (ongoingUploads (forget uID usc))
               (others uID (map_to_list (uploads usc))).*2)
      by (symmetry; apply rangeOrder_snd, rangeOrder_others, rangeOrder_canonical).
    rewrite !pendingOver_sectorsOver, uint64_add_l. unfold ongoingUploads.
    destruct (rangeOrder_split _ _ _ _ (rangeOrder_canonical usc) Hu)
      as (before & after & -> & Hb & Ha).
    rewrite others_split, sectorsOver_split by done.
    rewrite fmap_app, sectorsOver_app, !length_app. f_equal. lia.
Qed.




(** C3, counterexample.  One session appends the single root 7 under the
    zero contract id, which has no renewal: the id resolves to the pair
    (0, 0) and the session's sequence comes back twice. *)
Lemma sectors_append_order_counterexample :
  fcids (calls newUploadingSectorsCache
           [CallTrack 0 1%N; CallAddSector 1%N zeroFileContractID 7%N])
    zeroFileContractID
  = (zeroFileContractID, zeroFileContractID)
  ∧ sectors (calls newUploadingSectorsCache
               [CallTrack 0 1%N; CallAddSector 1%N zeroFileContractID 7%N])
      1 zeroFileContractID
    = [7%N; 7%N].
Proof. vm_compute. split; reflexivity. Qed.

(** C3, as amended.  Let C resolve to a pair of two different ids, and let
    S be a tracked session.  After the roots [hs] are appended under C in
    S, every list that [sectors] of C can return while S is tracked and not
    yet 24 hours old holds the contribution of S as one block, between the
    blocks of the other sessions; in that block the roots S stores under C,
    those stored before followed by [hs] in the order submitted, stand
    once, in one run.  The rest of the block is what S stores under the
    other id of the pair: the renewal of C, in front of the run, or the
    contract C was renewed from, behind it. *)
Theorem sectors_append_order (usc : uploadingSectorsCache) (S : UploadID)
    (C : FileContractID) (hs : list Hash256) (o : ongoingUpload) (now : Z) :
  uploads usc !! S = Some o →
  live now o →
  (fcids usc C).1 ≠ (fcids usc C).2 →
  ∃ usc', addUploadingSectors usc S C hs = inr usc'
    ∧ fcids usc' C = fcids usc C
    ∧ ∀ ups, rangeOrder usc' ups →
        ∃ before after o' pre post, ups = before ++ (S, o') :: after
          ∧ (S ∉ before.*1) ∧ (S ∉ after.*1)
          ∧ sectorsOver now ups.*2 (fcids usc' C).1 (fcids usc' C).2
            = sectorsOver now before.*2 (fcids usc' C).1 (fcids usc' C).2
                ++ (pre ++ (stored o C ++ hs) ++ post)
                ++ sectorsOver now after.*2 (fcids usc' C).1 (fcids usc' C).2
          ∧ (((fcids usc C).1 = C ∧ pre = []
              ∧ post = stored o (fcids usc C).2)
             ∨ ((fcids usc C).2 = C ∧ pre = stored o (fcids usc C).1
                ∧ post = [])).
Proof.
  intros Hu Hlive Hne.
  destruct (addUploadingSectors_tracked hs usc S C o Hu)
    as (usc' & o' & Hrun & Hu' & Hst & Hsec & Hoth & Hrf & Hrt).
  exists usc'. split; [done|].
  assert (fcids usc' C = fcids usc C) as Hf by by apply fcids_maps.
  split; [done|]. rewrite Hf.
  intros ups Hups.
  destruct (rangeOrder_split _ _ _ _ Hups Hu') as (before & after & -> & Hb & Ha).
  assert (live now o') as Hlive' by (unfold live in *; by rewrite Hst).
  destruct (fcids_has usc C) as [H1|H2].
  - exists before, after, o', [], (stored o (fcids usc C).2).
    split_and!; try done; [|by left].
    rewrite sectorsOver_split. do 2 f_equal.
    unfold contribution. rewrite !ou_sectors_live by done.
    rewrite (Hoth (fcids usc C).2) by congruence.
    rewrite H1 at 1. by rewrite Hsec.
  - exists before, after, o', (stored o (fcids usc C).1), [].
    split_and!; try done; [|by right].
    rewrite sectorsOver_split. do 2 f_equal.
    unfold contribution. rewrite !ou_sectors_live by done.
    rewrite (Hoth (fcids usc C).1) by congruence.
    rewrite H2. by rewrite Hsec, app_nil_r.
Qed.

(** The theorem at the upload of [TestUploadingSectorsCache] that spans a
    renewal: roots 1 and 2 under contract 1, the renewal of 1 by 2, then
    roots 3 and 4 appended under contract 2. *)
Lemma sectors_append_order_witness :
  uploads (addRenewal
             (calls newUploadingSectorsCache
                [CallTrack 0 1%N; CallAddSector 1%N 1%N 1%N;
                 CallAddSector 1%N 1%N 2%N]) 2%N 1%N) !! 1%N
    = Some {| started := 0; contractSectors := {[1%N := [1%N; 2%N]]} |}
  ∧ live 1 {| started := 0; contractSectors := {[1%N := [1%N; 2%N]]} |}
  ∧ ∃ usc', addUploadingSectors
              (addRenewal
                 (calls newUploadingSectorsCache
                    [CallTrack 0 1%N; CallAddSector 1%N 1%N 1%N;
                     CallAddSector 1%N 1%N 2%N]) 2%N 1%N)
              1%N 2%N [3%N; 4%N] = inr usc'
      ∧ fcids usc' 2%N = (2%N, 1%N)
      ∧ sectors usc' 1 2%N = [3%N; 4%N; 1%N; 2%N].
Proof.
  split; [reflexivity|]. split; [vm_compute; reflexivity|].
  destruct (sectors_append_order
              (addRenewal
                 (calls newUploadingSectorsCache
                    [CallTrack 0 1%N; CallAddSector 1%N 1%N 1%N;
                     CallAddSector 1%N 1%N 2%N]) 2%N 1%N)
              1%N 2%N [3%N; 4%N]
              {| started := 0; contractSectors := {[1%N := [1%N; 2%N]]} |} 1)
    as (usc' & Hrun & Hf & Hsec).
  - reflexivity.
  - vm_compute. reflexivity.
  - vm_compute. discriminate.
  - exists usc'. split; [exact Hrun|]. split; [exact Hf|].
    injection Hrun as <-. vm_compute. reflexivity.
Defined.

(** C5, counterexample.  A session tracked at instant 0 is more than 24
    hours old at 25 hours and still in [uploads]; [addUploadingSector]
    consults no clock and returns no error for it. *)
Lemma addUploadingSector_expired_counterexample :
  let usc := calls newUploadingSectorsCache [CallTrack 0 1%N] in
  (∃ o, uploads usc !! 1%N = Some o
        ∧ time.Since (25 * time.Hour) (started o) > cacheExpiry)
  ∧ addUploadingSector usc 1%N 2%N 3%N
    = inr (calls usc [CallAddSector 1%N 2%N 3%N])
  ∧ addUploadingSector usc 1%N 2%N 3%N ≠ inl (ErrUnknownUpload 1%N).
Proof.
  split_and!.
  - eexists. split; [reflexivity|]. vm_compute. reflexivity.
  - reflexivity.
  - discriminate.
Qed.

(** C5, as amended.  For a session that is still a key of [uploads],
    [addUploadingSector] returns no error and appends the root, also when
    the session started more than 24 hours ago; the unknown-upload error
    comes only once the session is out of the map, as it is after any
    [finishUpload] at that clock reading has swept it. *)
Theorem addUploadingSector_expired (usc : uploadingSectorsCache) (now : Z)
    (uID : UploadID) (o : ongoingUpload) (fcid : FileContractID) (root : Hash256) :
  uploads usc !! uID = Some o →
  time.Since now (started o) > cacheExpiry →
  (∃ usc', addUploadingSector usc uID fcid root = inr usc'
     ∧ uploads usc' !! uID = Some (ou.addSector o fcid root)
     ∧ stored (ou.addSector o fcid root) fcid = stored o fcid ++ [root])
  ∧ (∀ uID', addUploadingSector (finishUpload usc now uID') uID fcid root
             = inl (ErrUnknownUpload uID)).
Proof.
  intros Hu Hexp. split.
  - unfold addUploadingSector. rewrite Hu. eexists. split; [done|]. simpl.
    split; [apply lookup_insert_eq | apply stored_addSector].
  - intros uID'. unfold addUploadingSector.
    destruct (uploads (finishUpload usc now uID') !! uID) as [o'|] eqn:Ho'; [|done].
    apply finishUpload_lookup_Some in Ho' as (_ & Hu' & Hexp'). congruence.
Qed.

(** The theorem at a session tracked at instant 0, at 25 hours. *)
Lemma addUploadingSector_expired_witness :
  uploads (calls newUploadingSectorsCache [CallTrack 0 1%N]) !! 1%N
    = Some {| started := 0; contractSectors := ∅ |}
  ∧ time.Since (25 * time.Hour) 0 > cacheExpiry
  ∧ ∃ usc', addUploadingSector (calls newUploadingSectorsCache [CallTrack 0 1%N])
              1%N 2%N 3%N = inr usc'
      ∧ uploads usc' !! 1%N
        = Some (ou.addSector {| started := 0; contractSectors := ∅ |} 2%N 3%N)
      ∧ stored (ou.addSector {| started := 0; contractSectors := ∅ |} 2%N 3%N) 2%N
        = stored {| started := 0; contractSectors := ∅ |} 2%N ++ [3%N].
Proof.
  split; [reflexivity|]. split; [vm_compute; reflexivity|].
  apply (addUploadingSector_expired
           (calls newUploadingSectorsCache [CallTrack 0 1%N]) (25 * time.Hour)
           1%N {| started := 0; contractSectors := ∅ |} 2%N 3%N).
  - reflexivity.
  - vm_compute. reflexivity.
Defined.

(** The theorem at a session tracked at instant 0 that holds one sector,
    read at 25 hours. *)
Lemma expired_session_reads_empty_witness :
  uploads (calls newUploadingSectorsCache
             [CallTrack 0 1%N; CallAddSector 1%N 10%N 7%N]) !! 1%N
    = Some {| started := 0; contractSectors := {[10%N := [7%N]]} |}
  ∧ time.Since (25 * time.Hour) 0 > cacheExpiry
  ∧ ∀ fcid, ou.sectors (25 * time.Hour)
              {| started := 0; contractSectors := {[10%N := [7%N]]} |} fcid = [].
Proof.
  split; [reflexivity|]. split; [vm_compute; reflexivity|].
  apply (expired_session_reads_empty
           (calls newUploadingSectorsCache
              [CallTrack 0 1%N; CallAddSector 1%N 10%N 7%N])
           (25 * time.Hour) 1%N
           {| started := 0; contractSectors := {[10%N := [7%N]]} |}).
  - reflexivity.
  - vm_compute. reflexivity.
Defined.

(** The theorem at two sessions, the first of which is finished. *)
Lemma finishUpload_frame_witness :
  uploads (calls newUploadingSectorsCache
             [CallTrack 0 1%N; CallAddSector 1%N 10%N 7%N; CallTrack 0 2%N])
    !! 1%N
    = Some {| started := 0; contractSectors := {[10%N := [7%N]]} |}
  ∧ 5 ≤ 6
  ∧ uploads (finishUpload
               (calls newUploadingSectorsCache
                  [CallTrack 0 1%N; CallAddSector 1%N 10%N 7%N; CallTrack 0 2%N])
               5 1%N) !! 1%N = None.
Proof.
  split; [reflexivity|]. split; [lia|].
  apply (finishUpload_frame
           (calls newUploadingSectorsCache
              [CallTrack 0 1%N; CallAddSector 1%N 10%N 7%N; CallTrack 0 2%N])
           5 6 1%N {| started := 0; contractSectors := {[10%N := [7%N]]} |}).
  - reflexivity.
  - lia.
Defined.

(** ** The scanner's paging against the mock bus *)

Lemma int_small (z : Z) : - maxInt - 1 ≤ z ≤ maxInt → int z = z.
Proof.
  unfold int, maxInt. intros H.
  rewrite Z.mod_small; lia.
Qed.

(** Where the sum of offset and limit fits an [int], nothing wraps and
    nothing panics. *)
Lemma Hosts_page (b : mockBus) (offset limit : Z) :
  0 ≤ offset → 0 ≤ limit → offset + limit ≤ maxInt →
  Hosts b offset limit
  = (logged b offset limit,
     Some (take (Z.to_nat limit) (drop (Z.to_nat offset) (hosts b)))).
Proof.
  intros Ho Hl Hfit. unfold Hosts, slice.
  rewrite int_small by (unfold maxInt in *; lia).
  case_bool_decide as Hstart.
  { do 2 f_equal. rewrite drop_ge by lia. by rewrite take_nil. }
  destruct (decide (offset + limit > Z.of_nat (length (hosts b)))) as [Hend|Hend].
  - rewrite (bool_decide_eq_true_2 _ Hend), bool_decide_eq_true_2 by lia.
    do 2 f_equal. rewrite !take_ge; [done| |]; rewrite length_drop; lia.
  - rewrite (bool_decide_eq_false_2 _ Hend), bool_decide_eq_true_2 by lia.
    do 3 f_equal. lia.
Qed.

Lemma HostsForScanning_page (b : mockBus) (offset limit : Z) :
  0 ≤ offset → 0 ≤ limit → offset + limit ≤ maxInt →
  HostsForScanning b offset limit
  = (logged b offset limit,
     Some (hostAddress <$> take (Z.to_nat limit)
                             (drop (Z.to_nat offset) (hosts b)))).
Proof.
  intros Ho Hl Hfit. unfold HostsForScanning. by rewrite Hosts_page.
Qed.

(** A page that comes back full is followed by the request for the next. *)
Lemma pageHosts_full (fuel : nat) (s : scanner) (b : mockBus) (offset : Z) :
  0 ≤ offset → 0 ≤ scanBatchSize s →
  offset + scanBatchSize s ≤ maxInt →
  offset + scanBatchSize s ≤ Z.of_nat (length (hosts b)) →
  pageHosts (S fuel) s b offset
  = ((pageHosts fuel s (logged b offset (scanBatchSize s))
        (offset + scanBatchSize s)).1,
     (hostAddress <$> take (Z.to_nat (scanBatchSize s))
                        (drop (Z.to_nat offset) (hosts b)))
     :: (pageHosts fuel s (logged b offset (scanBatchSize s))
           (offset + scanBatchSize s)).2).
Proof.
  intros Ho Hb Hfit Hlen. simpl. rewrite HostsForScanning_page by done.
  rewrite length_fmap, length_take, length_drop.
  rewrite bool_decide_eq_false_2 by lia.
  by destruct (pageHosts fuel s _ _).
Qed.

(** A page that comes back short is the last one requested. *)
Lemma pageHosts_short (fuel : nat) (s : scanner) (b : mockBus) (offset : Z) :
  0 ≤ offset → 0 < scanBatchSize s →
  offset + scanBatchSize s ≤ maxInt →
  Z.of_nat (length (hosts b)) < offset + scanBatchSize s →
  pageHosts (S fuel) s b offset
  = (logged b offset (scanBatchSize s),
     [hostAddress <$> drop (Z.to_nat offset) (hosts b)]).
Proof.
  intros Ho Hb Hfit Hlen. simpl. rewrite HostsForScanning_page by lia.
  rewrite length_fmap, length_take, length_drop.
  rewrite bool_decide_eq_true_2 by lia.
  rewrite take_ge; [done|]. rewrite length_drop. lia.
Qed.

(** C9. With 100 hosts behind the mock bus and a batch size of 40, the
    paging issues exactly the three requests "0-40", "40-80" and "80-120"
    (offsets 0, 40 and 80, limit 40 each) and gets pages of 40, 40 and 20
    hosts that together are the whole population, for every value of
    [scanThreads] and every bound of at least three requests. *)
Theorem scanner_pagination (s : scanner) (b : mockBus) (fuel : nat) :
  scanBatchSize s = 40 →
  length (hosts b) = 100%nat →
  reqs b = [] →
  (3 ≤ fuel)%nat →
  reqs (pageHosts fuel s b 0).1 = ["0-40"; "40-80"; "80-120"]%string
  ∧ length <$> (pageHosts fuel s b 0).2 = [40; 40; 20]%nat
  ∧ concat (pageHosts fuel s b 0).2 = hostAddress <$> hosts b.
Proof.
  intros Hs Hh Hr Hfuel.
  destruct fuel as [|[|[|fuel]]]; try lia.
  rewrite pageHosts_full by (rewrite ?Hs; unfold maxInt; simpl; lia).
  rewrite pageHosts_full by (rewrite ?Hs; unfold maxInt; simpl; lia).
  rewrite pageHosts_short by (rewrite ?Hs; unfold maxInt; simpl; lia).
  rewrite Hs; simpl. unfold fmtReq. rewrite Hr; simpl. split_and!.
  - reflexivity.
  - rewrite !length_fmap, !length_take, !length_drop, Hh. reflexivity.
  - rewrite app_nil_r, <- !fmap_app. f_equal.
    change (Z.to_nat 0) with 0%nat. rewrite drop_0.
    change (Z.to_nat 40) with 40%nat.
    change (Z.to_nat (0 + 40)) with 40%nat.
    change (Z.to_nat (0 + 40 + 40)) with (40 + 40)%nat.
    by rewrite <- (drop_drop (hosts b) 40 40), !take_drop.
Qed.

(** The theorem at the scanner of the test and 100 hosts. *)
Lemma scanner_pagination_witness :
  scanBatchSize newTestScanner = 40
  ∧ length (hosts {| hosts := replicate 100 {| NetAddress := "host"; PublicKey := 1%N |};
                     reqs := [] |}) = 100%nat
  ∧ reqs (pageHosts 3 newTestScanner
            {| hosts := replicate 100 {| NetAddress := "host"; PublicKey := 1%N |};
               reqs := [] |} 0).1
    = ["0-40"; "40-80"; "80-120"]%string.
Proof.
  split; [reflexivity|]. split; [reflexivity|].
  apply (scanner_pagination newTestScanner
           {| hosts := replicate 100 {| NetAddress := "host"; PublicKey := 1%N |};
              reqs := [] |} 3).
  - reflexivity.
  - reflexivity.
  - reflexivity.
  - lia.
Defined.

(** ** The downtime policy *)

(** The model is monotonic in the tolerated downtime and never negative,
    as the specification asks of the function. *)
Lemma minRecentScanFailures_mono (scanInterval maxDowntime maxDowntime' : Z) :
  0 < scanInterval → maxDowntime ≤ maxDowntime' →
  0 ≤ minRecentScanFailures scanInterval maxDowntime
    ≤ minRecentScanFailures scanInterval maxDowntime'.
Proof.
  intros Hi Hd. unfold minRecentScanFailures.
  repeat case_bool_decide; try lia.
  - split; [lia|]. apply Z.div_pos; lia.
  - split; [apply Z.div_pos; lia|]. apply Z.div_le_mono; lia.
Qed.

(** C8. With a scan interval of one day, [minRecentScanFailures] is 10 for a
    tolerated downtime of two weeks, 5 for one week, 1 for one day and 0 for
    one hour; and it is 0 whenever the tolerated downtime is shorter than
    the scan interval. *)
Theorem minRecentScanFailures_table (scanInterval maxDowntime : Z) :
  minRecentScanFailures (24 * time.Hour) (2 * (7 * (24 * time.Hour))) = 10
  ∧ minRecentScanFailures (24 * time.Hour) (7 * (24 * time.Hour)) = 5
  ∧ minRecentScanFailures (24 * time.Hour) (24 * time.Hour) = 1
  ∧ minRecentScanFailures (24 * time.Hour) time.Hour = 0
  ∧ (maxDowntime < scanInterval →
     minRecentScanFailures scanInterval maxDowntime = 0).
Proof.
  split_and!; try reflexivity.
  intros H. unfold minRecentScanFailures. by rewrite bool_decide_eq_true_2.
Qed.

(** The theorem at an interval of one hour and a downtime of one minute. *)
Lemma minRecentScanFailures_table_witness :
  time.Minute < time.Hour ∧ minRecentScanFailures time.Hour time.Minute = 0.
Proof.
  split; [reflexivity|].
  apply (minRecentScanFailures_table time.Hour time.Minute). reflexivity.
Defined.

(** * Further properties of the cache *)

Lemma ongoingUploads_tracked (usc : uploadingSectorsCache) (uID : UploadID)
    (o : ongoingUpload) :
  uploads usc !! uID = Some o →
  ongoingUploads usc ≡ₚ o :: ongoingUploads (forget uID usc).
Proof.
  intros Hu. unfold ongoingUploads, forget; simpl.
  by rewrite <- (map_to_list_delete (uploads usc) uID o Hu).
Qed.

Lemma ongoingUploads_insert (usc : uploadingSectorsCache) (uID : UploadID)
    (o : ongoingUpload) :
  (map_to_list (<[uID := o]> (uploads usc))).*2
  ≡ₚ o :: ongoingUploads (forget uID usc).
Proof.
  unfold ongoingUploads, forget; simpl.
  rewrite <- insert_delete_eq, map_to_list_insert by apply lookup_delete_eq.
  done.
Qed.

Lemma stored_empty (now : Z) (fcid : FileContractID) :
  stored {| started := now; contractSectors := ∅ |} fcid = [].
Proof. unfold stored; simpl. by rewrite lookup_empty. Qed.

Lemma contribution_length (now : Z) (o : ongoingUpload) (f r : FileContractID) :
  length (contribution now o f r)
  = if decide (live now o) then (length (stored o f) + length (stored o r))%nat
    else 0%nat.
Proof.
  unfold contribution. rewrite length_app, !ou_sectors_stored.
  by case_decide.
Qed.

(** [sectors] returns exactly the roots that some tracked session, less than
    24 hours old at the clock reading, stores under one of the two ids the
    queried id resolves to: nothing else, and none of them missing. *)
Theorem sectors_elem_of (usc : uploadingSectorsCache) (now : Z)
    (fcid : FileContractID) (root : Hash256) :
  (root ∈ sectors usc now fcid
   ↔ ∃ uID o, uploads usc !! uID = Some o ∧ live now o
       ∧ (root ∈ stored o (fcids usc fcid).1 ∨ root ∈ stored o (fcids usc fcid).2))
  ∧ (sectors usc now fcid = [] ↔
     ∀ uID o, uploads usc !! uID = Some o → live now o →
       stored o (fcids usc fcid).1 = [] ∧ stored o (fcids usc fcid).2 = []).
Proof.
  unfold sectors. destruct (fcids usc fcid) as [f r]; simpl.
  assert (∀ x, x ∈ sectorsOver now (ongoingUploads usc) f r
            ↔ ∃ uID o, uploads usc !! uID = Some o ∧ live now o
                ∧ (x ∈ stored o f ∨ x ∈ stored o r)) as Hin.
  { intros x. rewrite sectorsOver_bind, list_elem_of_bind. unfold ongoingUploads.
    split.
    - intros (o & Hx & ([k o'] & -> & Hk%elem_of_map_to_list)%list_elem_of_fmap).
      simpl in *. unfold contribution in Hx. rewrite !ou_sectors_stored in Hx.
      destruct (decide (live now o')) as [Hl|Hl].
      + apply elem_of_app in Hx. by exists k, o'.
      + by apply elem_of_nil in Hx.
    - intros (k & o & Hk & Hl & Hx). exists o. split.
      + unfold contribution. rewrite !ou_sectors_live by done.
        by apply elem_of_app.
      + apply list_elem_of_fmap. exists (k, o). split; [done|].
        by apply elem_of_map_to_list. }
  split; [apply Hin|]. split.
  - intros Hnil k o Hk Hl.
    assert (∀ x, (x ∉ stored o f) ∧ (x ∉ stored o r)) as Hno.
    { intros x. split; intros Hx;
        (assert (x ∈ sectorsOver now (ongoingUploads usc) f r) as Hx'
           by (apply Hin; exists k, o; auto));
        rewrite Hnil in Hx'; by apply elem_of_nil in Hx'. }
    split; apply elem_of_nil_inv; intros x; apply Hno.
  - intros Hall. apply elem_of_nil_inv. intros x (k & o & Hk & Hl & Hx)%Hin.
    destruct (Hall k o Hk Hl) as [Hf Hr]. rewrite Hf, Hr in Hx.
    destruct Hx as [Hx|Hx]; by apply elem_of_nil in Hx.
Qed.

(** Whatever order the map of uploads is ranged over in, [pending] comes to
    the same number and [sectors] to the same roots with the same
    multiplicities. *)
Theorem queries_any_order (usc : uploadingSectorsCache) (now : Z)
    (fcid : FileContractID) (ups : list (UploadID * ongoingUpload)) :
  rangeOrder usc ups →
  pendingOver now ups.*2 (fcids usc fcid).1 (fcids usc fcid).2
  = pending usc now fcid
  ∧ sectorsOver now ups.*2 (fcids usc fcid).1 (fcids usc fcid).2
    ≡ₚ sectors usc now fcid.
Proof.
  intros Hups. apply rangeOrder_snd in Hups.
  unfold pending, sectors. destruct (fcids usc fcid) as [f r]; simpl. split.
  - by apply pendingOver_Permutation.
  - by apply sectorsOver_Permutation.
Qed.

(** The theorem at two uploads, ranged over in the reverse of the order the
    model ranges in. *)
Lemma queries_any_order_witness :
  pendingOver 1
    (reverse (map_to_list (uploads (calls newUploadingSectorsCache
       [CallTrack 0 1%N; CallAddSector 1%N 10%N 7%N;
        CallTrack 0 2%N; CallAddSector 2%N 10%N 8%N])))).*2
    10%N zeroFileContractID
  = 2 * rhp.SectorSize.
Proof.
  pose proof (queries_any_order
    (calls newUploadingSectorsCache
       [CallTrack 0 1%N; CallAddSector 1%N 10%N 7%N;
        CallTrack 0 2%N; CallAddSector 2%N 10%N 8%N])
    1 10%N
    (reverse (map_to_list (uploads (calls newUploadingSectorsCache
       [CallTrack 0 1%N; CallAddSector 1%N 10%N 7%N;
        CallTrack 0 2%N; CallAddSector 2%N 10%N 8%N]))))
    (reverse_Permutation _)) as [H _].
  exact H.
Defined.

(** [addUploadingSector] on a tracked upload puts the root at the end of
    the upload's list for the contract and changes nothing else: not the
    start of the upload, not its lists for other contracts, not the other
    uploads, not the renewal maps. *)
Theorem addUploadingSector_frame (usc : uploadingSectorsCache) (uID : UploadID)
    (fcid : FileContractID) (root : Hash256) (o : ongoingUpload) :
  uploads usc !! uID = Some o →
  ∃ usc' o', addUploadingSector usc uID fcid root = inr usc'
    ∧ uploads usc' !! uID = Some o'
    ∧ started o' = started o
    ∧ contractSectors o' !! fcid = Some (stored o fcid ++ [root])
    ∧ (∀ x, x ≠ fcid → contractSectors o' !! x = contractSectors o !! x)
    ∧ (∀ k, k ≠ uID → uploads usc' !! k = uploads usc !! k)
    ∧ renewedFrom usc' = renewedFrom usc
    ∧ renewedTo usc' = renewedTo usc.
Proof.
  intros Hu. unfold addUploadingSector. rewrite Hu.
  eexists _, (ou.addSector o fcid root). split; [done|]. simpl.
  split_and!; try done.
  - apply lookup_insert_eq.
  - apply lookup_insert_eq.
  - intros x Hx. by apply lookup_insert_ne.
  - intros k Hk. by apply lookup_insert_ne.
Qed.

(** The theorem at an upload that already holds one root for the contract. *)
Lemma addUploadingSector_frame_witness :
  ∃ usc' o', addUploadingSector
               (calls newUploadingSectorsCache
                  [CallTrack 0 1%N; CallAddSector 1%N 10%N 7%N]) 1%N 10%N 8%N
             = inr usc'
    ∧ uploads usc' !! 1%N = Some o'
    ∧ contractSectors o' !! 10%N = Some [7%N; 8%N].
Proof.
  destruct (addUploadingSector_frame
              (calls newUploadingSectorsCache
                 [CallTrack 0 1%N; CallAddSector 1%N 10%N 7%N]) 1%N 10%N 8%N
              {| started := 0; contractSectors := {[10%N := [7%N]]} |})
    as (usc' & o' & Hrun & Hu & _ & Hsec & _).
  - reflexivity.
  - exists usc', o'. split; [exact Hrun|]. split; [exact Hu|]. exact Hsec.
Defined.

(** A root added to an upload that is less than 24 hours old raises
    [pending] of any queried id by one sector size for each of the two ids
    of the resolved pair that is the contract of the root (so by two when
    both are); added to an older upload it leaves [pending] as it was. *)
Theorem addUploadingSector_pending (usc usc' : uploadingSectorsCache)
    (uID : UploadID) (fcid : FileContractID) (root : Hash256)
    (o : ongoingUpload) (now : Z) (q : FileContractID) :
  uploads usc !! uID = Some o →
  addUploadingSector usc uID fcid root = inr usc' →
  (live now o →
   pending usc' now q
   = uint64 (pending usc now q
             + Z.of_nat (hits fcid (fcids usc q)) * rhp.SectorSize))
  ∧ (¬ live now o → pending usc' now q = pending usc now q).
Proof.
  intros Hu Hrun. unfold addUploadingSector in Hrun. rewrite Hu in Hrun.
  injection Hrun as <-. unfold pending, hits.
  rewrite (fcids_maps usc) by done.
  destruct (fcids usc q) as [f r]; simpl.
  unfold ongoingUploads at 1 3; simpl.
  rewrite !(pendingOver_Permutation now _ _ f r (ongoingUploads_insert usc uID _)).
  rewrite !(pendingOver_Permutation now _ _ f r (ongoingUploads_tracked usc uID o Hu)).
  rewrite !pendingOver_sum; simpl. rewrite !contribution_length.
  assert (live now (ou.addSector o fcid root) ↔ live now o) as Hlive by done.
  split; intros Hl.
  - rewrite !decide_True by (done || by apply Hlive).
    rewrite uint64_add_l. f_equal.
    assert (∀ x, length (stored (ou.addSector o fcid root) x)
                 = (length (stored o x)
                    + if decide (x = fcid) then 1 else 0)%nat) as Hlen.
    { intros x. case_decide as Hx.
      - subst x. rewrite stored_addSector, length_app. simpl. lia.
      - rewrite stored_addSector_ne by done. lia. }
    rewrite !Hlen. lia.
  - rewrite !decide_False by (done || by rewrite Hlive). done.
Qed.

(** The theorem at the zero contract id, where the pair is (0, 0) and one
    root counts twice. *)
Lemma addUploadingSector_pending_witness :
  pending (calls newUploadingSectorsCache
             [CallTrack 0 1%N; CallAddSector 1%N zeroFileContractID 7%N])
    1 zeroFileContractID
  = uint64 (pending (calls newUploadingSectorsCache [CallTrack 0 1%N])
              1 zeroFileContractID
            + Z.of_nat (hits zeroFileContractID
                          (fcids (calls newUploadingSectorsCache [CallTrack 0 1%N])
                             zeroFileContractID))
              * rhp.SectorSize).
Proof.
  refine (proj1 (addUploadingSector_pending
            (calls newUploadingSectorsCache [CallTrack 0 1%N])
            (calls newUploadingSectorsCache
               [CallTrack 0 1%N; CallAddSector 1%N zeroFileContractID 7%N])
            1%N zeroFileContractID 7%N
            {| started := 0; contractSectors := ∅ |} 1 zeroFileContractID
            _ _) _).
  - reflexivity.
  - reflexivity.
  - vm_compute. reflexivity.
Defined.

(** [trackUpload] of an id that is not tracked starts an upload that holds
    no roots: the other uploads stay as they were and no [pending] or
    [sectors] query changes its answer, at any clock reading. *)
Theorem trackUpload_adds_nothing (usc : uploadingSectorsCache) (now : Z)
    (uID : UploadID) :
  uploads usc !! uID = None →
  ∃ usc', trackUpload usc now uID = inr usc'
    ∧ uploads usc' !! uID = Some {| started := now; contractSectors := ∅ |}
    ∧ (∀ k, k ≠ uID → uploads usc' !! k = uploads usc !! k)
    ∧ (∀ now' fcid, pending usc' now' fcid = pending usc now' fcid)
    ∧ (∀ now' fcid, sectors usc' now' fcid ≡ₚ sectors usc now' fcid).
Proof.
  intros Hu. unfold trackUpload. rewrite Hu. eexists. split; [done|]. simpl.
  assert (∀ now' f r,
            sectorsOver now'
              (map_to_list (<[uID := {| started := now; contractSectors := ∅ |}]>
                              (uploads usc))).*2 f r
            ≡ₚ sectorsOver now' (ongoingUploads usc) f r) as Hsec.
  { intros now' f r. unfold ongoingUploads.
    rewrite (sectorsOver_Permutation now' _ _ f r
               (fmap_Permutation snd _ _ (map_to_list_insert _ uID _ Hu))).
    rewrite fmap_cons, sectorsOver_cons. unfold contribution; simpl.
    rewrite !ou_sectors_stored, !stored_empty. by case_decide. }
  split_and!.
  - apply lookup_insert_eq.
  - intros k Hk. by apply lookup_insert_ne.
  - intros now' fcid. unfold pending.
    rewrite (fcids_maps usc) by done. destruct (fcids usc fcid) as [f r].
    rewrite !pendingOver_sectorsOver. unfold ongoingUploads at 1; simpl.
    by rewrite (Hsec now' f r).
  - intros now' fcid. unfold sectors.
    rewrite (fcids_maps usc) by done. destruct (fcids usc fcid) as [f r].
    apply Hsec.
Qed.

(** The theorem at a cache with one upload, tracking a second one. *)
Lemma trackUpload_adds_nothing_witness :
  ∃ usc', trackUpload (calls newUploadingSectorsCache
                         [CallTrack 0 1%N; CallAddSector 1%N 10%N 7%N]) 5 2%N
          = inr usc'
    ∧ uploads usc' !! 2%N = Some {| started := 5; contractSectors := ∅ |}.
Proof.
  destruct (trackUpload_adds_nothing
              (calls newUploadingSectorsCache
                 [CallTrack 0 1%N; CallAddSector 1%N 10%N 7%N]) 5 2%N)
    as (usc' & Hrun & Hu & _).
  - reflexivity.
  - exists usc'. split; [exact Hrun | exact Hu].
Defined.

(** [trackUpload] followed by [finishUpload] of the same id comes to the
    [finishUpload] alone, whether or not the id was tracked before; when it
    was not and no upload is more than 24 hours old, the cache is back as it
    was. *)
Theorem track_finish_round_trip (usc : uploadingSectorsCache) (now now' : Z)
    (uID : UploadID) :
  finishUpload (call usc (CallTrack now uID)) now' uID = finishUpload usc now' uID
  ∧ (uploads usc !! uID = None →
     (∀ k o, uploads usc !! k = Some o →
        ¬ time.Since now' (started o) > cacheExpiry) →
     finishUpload (call usc (CallTrack now uID)) now' uID = usc).
Proof.
  assert (finishUpload (call usc (CallTrack now uID)) now' uID
          = finishUpload usc now' uID) as Heq.
  { simpl. unfold trackUpload. destruct (uploads usc !! uID); simpl; [done|].
    unfold finishUpload; simpl. by rewrite delete_insert_eq. }
  split; [done|]. intros Hu Hfresh. rewrite Heq.
  destruct usc as [m rf rt]; unfold finishUpload; simpl in *. f_equal.
  apply map_eq; intros k. apply option_eq; intros o.
  rewrite pruneExpired_lookup_Some, lookup_delete_Some. split.
  - by intros [[_ Hk] _].
  - intros Hk. split_and!; [congruence | done | by eapply Hfresh].
Qed.

(** A later [finishUpload] subsumes the sweep of an earlier one: finishing
    one upload and then another leaves what finishing the second leaves,
    less the first; in particular finishing the same upload twice at one
    clock reading is finishing it once. *)
Theorem finishUpload_twice (usc : uploadingSectorsCache) (now now' : Z)
    (uID1 uID2 : UploadID) :
  now ≤ now' →
  finishUpload (finishUpload usc now uID1) now' uID2
  = forget uID1 (finishUpload usc now' uID2)
  ∧ finishUpload (finishUpload usc now' uID2) now' uID2
    = finishUpload usc now' uID2.
Proof.
  intros Hle.
  assert (∀ t t' u1 u2, t ≤ t' →
            finishUpload (finishUpload usc t u1) t' u2
            = forget u1 (finishUpload usc t' u2)) as Hgen.
  { intros t t' u1 u2 Ht. unfold forget, finishUpload; simpl. f_equal.
    apply map_eq; intros k. apply option_eq; intros o.
    rewrite lookup_delete_Some, !pruneExpired_lookup_Some, !lookup_delete_Some,
      pruneExpired_lookup_Some, lookup_delete_Some.
    pose proof (Since_mono t t' (started o) Ht). split.
    - intros ([Hk2 ([Hk1 Hk] & Hexp)] & Hexp'). auto.
    - intros (Hk1 & [Hk2 Hk] & Hexp'). split_and!; auto. lia. }
  split; [by apply Hgen|].
  rewrite Hgen by lia. unfold forget, finishUpload; simpl. f_equal.
  apply delete_id. apply eq_None_not_Some. intros [o Ho].
  apply pruneExpired_lookup_Some in Ho as [Ho _].
  by rewrite lookup_delete_eq in Ho.
Qed.

(** The theorem at two uploads finished one after the other. *)
Lemma finishUpload_twice_witness :
  5 ≤ 6
  ∧ finishUpload
      (finishUpload
         (calls newUploadingSectorsCache [CallTrack 0 1%N; CallTrack 0 2%N])
         5 1%N) 6 2%N
    = forget 1%N
        (finishUpload
           (calls newUploadingSectorsCache [CallTrack 0 1%N; CallTrack 0 2%N])
           6 2%N).
Proof.
  split; [lia|].
  apply (finishUpload_twice
           (calls newUploadingSectorsCache [CallTrack 0 1%N; CallTrack 0 2%N])
           5 6 1%N 2%N).
  lia.
Defined.

(** The pruning loop of [finishUpload] deletes from the map it ranges over;
    in whatever order the entries are visited, what is left is the entries
    that are not more than 24 hours old. *)
Theorem prune_any_order (now : Z) (m : gmap UploadID ongoingUpload)
    (visits : list (UploadID * ongoingUpload)) :
  visits ≡ₚ map_to_list m →
  pruneOver now visits m = pruneExpired now m
  ∧ ∀ k o, pruneOver now visits m !! k = Some o
      ↔ m !! k = Some o ∧ ¬ time.Since now (started o) > cacheExpiry.
Proof.
  intros Hv.
  assert (∀ k o, pruneOver now visits m !! k = Some o
            ↔ m !! k = Some o ∧ ¬ time.Since now (started o) > cacheExpiry) as Hl.
  { intros k o. unfold pruneOver. rewrite pruneLoop_lookup. split.
    - intros (Hm & Hall). split; [done|]. apply Hall.
      rewrite Hv. by apply elem_of_map_to_list.
    - intros (Hm & Hexp). split; [done|].
      intros o' Hin. rewrite Hv in Hin. apply elem_of_map_to_list in Hin.
      congruence. }
  split; [|done].
  apply map_eq; intros k. apply option_eq; intros o.
  by rewrite Hl, pruneExpired_lookup_Some.
Qed.

(** The theorem at an expired and a fresh upload, visited in the reverse
    of the order the model visits them in. *)
Lemma prune_any_order_witness :
  pruneOver (25 * time.Hour)
    (reverse (map_to_list
       (uploads (calls newUploadingSectorsCache
                   [CallTrack 0 1%N; CallTrack (24 * time.Hour) 2%N]))))
    (uploads (calls newUploadingSectorsCache
                [CallTrack 0 1%N; CallTrack (24 * time.Hour) 2%N]))
  = pruneExpired (25 * time.Hour)
      (uploads (calls newUploadingSectorsCache
                  [CallTrack 0 1%N; CallTrack (24 * time.Hour) 2%N])).
Proof.
  apply (prune_any_order (25 * time.Hour)
           (uploads (calls newUploadingSectorsCache
                       [CallTrack 0 1%N; CallTrack (24 * time.Hour) 2%N]))
           (reverse (map_to_list
              (uploads (calls newUploadingSectorsCache
                          [CallTrack 0 1%N; CallTrack (24 * time.Hour) 2%N]))))).
  apply reverse_Permutation.
Defined.

(** An upload that is exactly 24 hours old is read as empty, since reads
    ask for less than 24 hours, yet no [finishUpload] of another id removes
    it, since the sweep asks for more than 24 hours. *)
Theorem expiry_boundary (usc : uploadingSectorsCache) (now : Z)
    (uID : UploadID) (o : ongoingUpload) :
  uploads usc !! uID = Some o →
  time.Since now (started o) = cacheExpiry →
  (∀ fcid, ou.sectors now o fcid = [])
  ∧ (∀ uID', uID' ≠ uID → uploads (finishUpload usc now uID') !! uID = Some o).
Proof.
  intros Hu Hage. split.
  - intros fcid. apply ou_sectors_not_live. unfold live. lia.
  - intros uID' Hne. apply finishUpload_lookup_Some. split_and!; [done|done|lia].
Qed.

(** The theorem at an upload tracked at instant 0, at 24 hours. *)
Lemma expiry_boundary_witness :
  time.Since (24 * time.Hour) 0 = cacheExpiry
  ∧ uploads (finishUpload
               (calls newUploadingSectorsCache
                  [CallTrack 0 1%N; CallAddSector 1%N 10%N 7%N])
               (24 * time.Hour) 2%N) !! 1%N
    = Some {| started := 0; contractSectors := {[10%N := [7%N]]} |}.
Proof.
  split; [reflexivity|].
  apply (expiry_boundary
           (calls newUploadingSectorsCache
              [CallTrack 0 1%N; CallAddSector 1%N 10%N 7%N])
           (24 * time.Hour) 1%N
           {| started := 0; contractSectors := {[10%N := [7%N]]} |}).
  - reflexivity.
  - reflexivity.
  - discriminate.
Defined.

(** * Further properties of the renewal maps *)

Lemma newUploadingSectorsCache_inverse : renewalsInverse newUploadingSectorsCache.
Proof.
  intros a b. unfold newUploadingSectorsCache; simpl.
  rewrite !lookup_empty. split; discriminate.
Qed.

Lemma addRenewal_keeps_inverse (usc : uploadingSectorsCache)
    (fcid rf : FileContractID) :
  renewalsInverse usc →
  renewedFrom usc !! fcid = None →
  renewedTo usc !! rf = None →
  renewalsInverse (addRenewal usc fcid rf).
Proof.
  intros Hinv Hfresh Hnew a b. unfold addRenewal.
  destruct (renewedFrom usc !! rf) as [prev|] eqn:Hprev; simpl.
  - assert (renewedTo usc !! prev = Some rf) as Hback by by apply Hinv.
    rewrite !lookup_insert_Some, !lookup_delete_Some. split.
    + intros [[-> ->]|(Hb & Hb' & Hba)]; [by left|]. right.
      pose proof (proj1 (Hinv a b) Hba) as Hab.
      split_and!; [congruence | congruence | done].
    + intros [[-> ->]|(Ha & Ha' & Hab)]; [by left|]. right.
      pose proof (proj2 (Hinv a b) Hab) as Hba.
      split_and!; [congruence | congruence | done].
  - rewrite !lookup_insert_Some. split.
    + intros [[-> ->]|(Hb & Hba)]; [by left|]. right.
      pose proof (proj1 (Hinv a b) Hba) as Hab. split; [congruence | done].
    + intros [[-> ->]|(Ha & Hab)]; [by left|]. right.
      pose proof (proj2 (Hinv a b) Hab) as Hba. split; [congruence | done].
Qed.

(** The two renewal maps mirror each other in a new cache; they stay so
    under every call of the session lifecycle, and under a renewal by an id
    that is not yet the renewal of anything, of a contract that has no
    renewal yet: the pruning removes a matching pair of entries and the
    insertion adds one. *)
Theorem addRenewal_inverse (usc : uploadingSectorsCache)
    (fcid rf : FileContractID) (c : sessionCall) :
  renewalsInverse newUploadingSectorsCache
  ∧ (renewalsInverse usc → renewalsInverse (call usc c))
  ∧ (renewalsInverse usc →
     renewedFrom usc !! fcid = None →
     renewedTo usc !! rf = None →
     renewalsInverse (addRenewal usc fcid rf)).
Proof.
  split_and!.
  - apply newUploadingSectorsCache_inverse.
  - intros Hinv a b. destruct (call_renewals usc c) as [-> ->]. apply Hinv.
  - apply addRenewal_keeps_inverse.
Qed.

(** The theorem at the second renewal of a chain 1 -> 2 -> 3. *)
Lemma addRenewal_inverse_witness :
  renewalsInverse
    (addRenewal (addRenewal newUploadingSectorsCache 2%N 1%N) 3%N 2%N).
Proof.
  refine (proj2 (proj2 (addRenewal_inverse
            (addRenewal newUploadingSectorsCache 2%N 1%N) 3%N 2%N
            (CallFinish 0 0%N))) _ _ _).
  - apply (addRenewal_keeps_inverse newUploadingSectorsCache 2%N 1%N).
    + apply newUploadingSectorsCache_inverse.
    + reflexivity.
    + reflexivity.
  - reflexivity.
  - reflexivity.
Defined.

(** Under the same conditions the maps do not grow when the renewed
    contract was itself a renewal: the entries of its predecessor make room
    for the new ones.  They grow by one entry each otherwise. *)
Theorem addRenewal_size (usc : uploadingSectorsCache)
    (fcid rf : FileContractID) :
  renewalsInverse usc →
  renewedFrom usc !! fcid = None →
  renewedTo usc !! rf = None →
  (is_Some (renewedFrom usc !! rf) →
   size (renewedFrom (addRenewal usc fcid rf)) = size (renewedFrom usc)
   ∧ size (renewedTo (addRenewal usc fcid rf)) = size (renewedTo usc))
  ∧ (renewedFrom usc !! rf = None →
     size (renewedFrom (addRenewal usc fcid rf)) = S (size (renewedFrom usc))
     ∧ size (renewedTo (addRenewal usc fcid rf)) = S (size (renewedTo usc))).
Proof.
  intros Hinv Hfresh Hnew. unfold addRenewal. split.
  - intros [prev Hprev]. rewrite Hprev; simpl.
    assert (renewedTo usc !! prev = Some rf) as Hback by by apply Hinv.
    assert (fcid ≠ rf) as Hne by congruence.
    assert (rf ≠ prev) as Hne' by congruence.
    rewrite !map_size_insert_None.
    + rewrite !map_size_delete_Some by by eexists.
      pose proof (map_size_ne_0_lookup_2 (renewedFrom usc) rf
                    (ex_intro _ _ Hprev)).
      pose proof (map_size_ne_0_lookup_2 (renewedTo usc) prev
                    (ex_intro _ _ Hback)). lia.
    + rewrite lookup_delete_ne by done. done.
    + rewrite lookup_delete_ne by done. done.
  - intros Hnone. rewrite Hnone; simpl.
    by rewrite !map_size_insert_None.
Qed.

(** The theorem at the second renewal of a chain 1 -> 2 -> 3. *)
Lemma addRenewal_size_witness :
  size (renewedFrom (addRenewal (addRenewal newUploadingSectorsCache 2%N 1%N)
                       3%N 2%N))
  = size (renewedFrom (addRenewal newUploadingSectorsCache 2%N 1%N)).
Proof.
  refine (proj1 (proj1 (addRenewal_size
            (addRenewal newUploadingSectorsCache 2%N 1%N) 3%N 2%N _ _ _) _)).
  - apply (addRenewal_keeps_inverse newUploadingSectorsCache 2%N 1%N).
    + apply newUploadingSectorsCache_inverse.
    + reflexivity.
    + reflexivity.
  - reflexivity.
  - reflexivity.
  - eexists. reflexivity.
Defined.

Lemma addRenewal_uploads (usc : uploadingSectorsCache) (fcid rf : FileContractID) :
  uploads (addRenewal usc fcid rf) = uploads usc.
Proof. unfold addRenewal. by destruct (renewedFrom usc !! rf). Qed.

(** A renewal changes the resolution of three ids at most: the new id, the
    renewed contract and the contract that one was renewed from.  Every
    other id resolves as before, and the uploads are not touched. *)
Theorem addRenewal_frame (usc : uploadingSectorsCache)
    (fcid rf q : FileContractID) :
  q ≠ fcid → q ≠ rf → renewedFrom usc !! rf ≠ Some q →
  fcids (addRenewal usc fcid rf) q = fcids usc q
  ∧ uploads (addRenewal usc fcid rf) = uploads usc.
Proof.
  intros Hq1 Hq2 Hq3. split.
  - unfold fcids, addRenewal.
    destruct (renewedFrom usc !! rf) as [prev|] eqn:Hprev; simpl.
    + assert (prev ≠ q) as Hq4 by congruence.
      by rewrite !lookup_insert_ne, !lookup_delete_ne by done.
    + by rewrite !lookup_insert_ne by done.
  - apply addRenewal_uploads.
Qed.

(** The theorem at an id outside the chain 1 -> 2 -> 3. *)
Lemma addRenewal_frame_witness :
  fcids (addRenewal
           (addRenewal (addRenewal newUploadingSectorsCache 2%N 1%N) 9%N 8%N)
           3%N 2%N) 9%N
  = fcids (addRenewal (addRenewal newUploadingSectorsCache 2%N 1%N) 9%N 8%N) 9%N.
Proof.
  refine (proj1 (addRenewal_frame
            (addRenewal (addRenewal newUploadingSectorsCache 2%N 1%N) 9%N 8%N)
            3%N 2%N 9%N _ _ _)).
  - discriminate.
  - discriminate.
  - vm_compute. discriminate.
Defined.

(** A contract that renews twice drops out of the resolution: after
    [addRenewal B A] and [addRenewal C B] for three different ids, B and C
    both resolve to the pair (C, B), and A resolves to itself and the zero
    id, so what uploads store under A no longer counts for B or C, nor what
    they store under B or C for A. *)
Theorem addRenewal_twice (usc : uploadingSectorsCache)
    (A B C : FileContractID) (now : Z) :
  A ≠ B → B ≠ C → A ≠ C →
  renewedTo usc !! C = None →
  fcids (addRenewal (addRenewal usc B A) C B) A = (A, zeroFileContractID)
  ∧ fcids (addRenewal (addRenewal usc B A) C B) B = (C, B)
  ∧ fcids (addRenewal (addRenewal usc B A) C B) C = (C, B)
  ∧ pending (addRenewal (addRenewal usc B A) C B) now C
    = uint64 (Z.of_nat (liveStored now (ongoingUploads usc) C B) * rhp.SectorSize)
  ∧ pending (addRenewal (addRenewal usc B A) C B) now A
    = uint64 (Z.of_nat (liveStored now (ongoingUploads usc) A zeroFileContractID)
              * rhp.SectorSize).
Proof.
  intros HAB HBC HAC HC.
  assert (renewedFrom (addRenewal usc B A) !! B = Some A) as H1
    by apply addRenewal_renewedFrom.
  assert (renewedFrom (addRenewal usc B A) !! A = None) as H2.
  { unfold addRenewal; simpl. rewrite lookup_insert_ne by done.
    destruct (renewedFrom usc !! A) eqn:HA; simpl; [apply lookup_delete_eq | done]. }
  assert (renewedTo (addRenewal usc B A) !! C = None) as H3.
  { unfold addRenewal; simpl. rewrite lookup_insert_ne by done.
    destruct (renewedFrom usc !! A); simpl; [|done].
    apply lookup_delete_None. by right. }
  assert (fcids (addRenewal (addRenewal usc B A) C B) A = (A, zeroFileContractID)
          ∧ fcids (addRenewal (addRenewal usc B A) C B) B = (C, B)
          ∧ fcids (addRenewal (addRenewal usc B A) C B) C = (C, B))
    as (FA & FB & FC).
  { assert (renewedTo (addRenewal (addRenewal usc B A) C B)
            = <[B := C]> (delete A (renewedTo (addRenewal usc B A)))) as HT
      by (unfold addRenewal at 1; by rewrite H1).
    assert (renewedFrom (addRenewal (addRenewal usc B A) C B)
            = <[C := B]> (delete B (renewedFrom (addRenewal usc B A)))) as HF
      by (unfold addRenewal at 1; by rewrite H1).
    unfold fcids. rewrite HT, HF. split_and!.
    - rewrite lookup_insert_ne, lookup_delete_eq by done.
      rewrite lookup_insert_ne, lookup_delete_ne, H2 by done. done.
    - by rewrite lookup_insert_eq.
    - rewrite lookup_insert_ne, lookup_delete_ne, H3 by done.
      by rewrite lookup_insert_eq. }
  split_and!; try done.
  - unfold pending. rewrite FC, pendingOver_sum, contribution_liveStored.
    unfold ongoingUploads. by rewrite !addRenewal_uploads.
  - unfold pending. rewrite FA, pendingOver_sum, contribution_liveStored.
    unfold ongoingUploads. by rewrite !addRenewal_uploads.
Qed.

(** The theorem at the chain 1 -> 2 -> 3 of the test, with one upload
    across the three contracts. *)
Lemma addRenewal_twice_witness :
  fcids (addRenewal
           (addRenewal
              (calls newUploadingSectorsCache
                 [CallTrack 0 1%N; CallAddSector 1%N 1%N 7%N])
              2%N 1%N)
           3%N 2%N) 1%N
  = (1%N, zeroFileContractID).
Proof.
  refine (proj1 (addRenewal_twice
            (calls newUploadingSectorsCache
               [CallTrack 0 1%N; CallAddSector 1%N 1%N 7%N])
            1%N 2%N 3%N 0 _ _ _ _)).
  - discriminate.
  - discriminate.
  - discriminate.
  - reflexivity.
Defined.

(** No call of the session lifecycle changes how an id resolves: tracking,
    adding sectors and finishing leave both renewal maps as they are. *)
Theorem session_calls_keep_renewals (usc : uploadingSectorsCache)
    (cs : list sessionCall) (fcid : FileContractID) :
  renewedFrom (calls usc cs) = renewedFrom usc
  ∧ renewedTo (calls usc cs) = renewedTo usc
  ∧ fcids (calls usc cs) fcid = fcids usc fcid.
Proof.
  destruct (calls_renewals cs usc) as [H1 H2].
  split_and!; [done | done | by apply fcids_maps].
Qed.

(** * Further properties of the mock bus *)

(** For an offset and a limit that are not negative and whose sum fits an
    [int], [Hosts] logs exactly one request after those already logged,
    keeps its hosts, does not panic, and returns the window of at most
    [limit] hosts that starts at [offset]: empty when the offset is at or
    past the end, cut short when the window runs past it.
    [HostsForScanning] returns the addresses of that same window. *)
Theorem Hosts_window (b : mockBus) (offset limit : Z) :
  0 ≤ offset → 0 ≤ limit → offset + limit ≤ maxInt →
  ∃ page,
    (Hosts b offset limit).2 = Some page
    ∧ hosts (Hosts b offset limit).1 = hosts b
    ∧ reqs (Hosts b offset limit).1
      = reqs b ++ [pretty offset +:+ "-" +:+ pretty (offset + limit)]
    ∧ page = take (Z.to_nat limit) (drop (Z.to_nat offset) (hosts b))
    ∧ Z.of_nat (length page)
      = Z.min limit (Z.max 0 (Z.of_nat (length (hosts b)) - offset))
    ∧ (Z.of_nat (length (hosts b)) ≤ offset → page = [])
    ∧ page `sublist_of` hosts b
    ∧ HostsForScanning b offset limit
      = ((Hosts b offset limit).1, Some (hostAddress <$> page)).
Proof.
  intros Ho Hl Hfit. rewrite HostsForScanning_page, Hosts_page by done.
  eexists. split; [done|]. simpl. split_and!; try done.
  - unfold fmtReq. rewrite int_small by (unfold maxInt in *; lia). done.
  - rewrite length_take, length_drop. lia.
  - intros Hend. rewrite drop_ge by lia. apply take_nil.
  - etrans; [apply sublist_take | apply sublist_drop].
Qed.

(** The theorem at the last page of the test: 100 hosts, offset 80. *)
Lemma Hosts_window_witness :
  ∃ page,
    (Hosts {| hosts := replicate 100 {| NetAddress := "host"; PublicKey := 1%N |};
              reqs := ["0-40"; "40-80"]%string |} 80 40).2 = Some page
    ∧ length page = 20%nat
    ∧ reqs (Hosts {| hosts := replicate 100 {| NetAddress := "host"; PublicKey := 1%N |};
                     reqs := ["0-40"; "40-80"]%string |} 80 40).1
      = ["0-40"; "40-80"; "80-120"]%string.
Proof.
  destruct (Hosts_window
              {| hosts := replicate 100 {| NetAddress := "host"; PublicKey := 1%N |};
                 reqs := ["0-40"; "40-80"]%string |} 80 40)
    as (page & Hpage & _ & Hreqs & _ & Hlen & _).
  - lia.
  - lia.
  - unfold maxInt. lia.
  - exists page. split; [exact Hpage|]. split; [|exact Hreqs].
    apply Nat2Z.inj. rewrite Hlen. reflexivity.
Defined.

(** Two requests for adjoining windows that fit an [int] return, one after
    the other, what one request for the joined window returns; the log
    holds both requests in the order made. *)
Theorem Hosts_adjoining (b : mockBus) (offset limit limit' : Z) :
  0 ≤ offset → 0 ≤ limit → 0 ≤ limit' →
  offset + limit + limit' ≤ maxInt →
  ∃ page page',
    (Hosts b offset limit).2 = Some page
    ∧ (Hosts (Hosts b offset limit).1 (offset + limit) limit').2 = Some page'
    ∧ (Hosts b offset (limit + limit')).2 = Some (page ++ page')
    ∧ reqs (Hosts (Hosts b offset limit).1 (offset + limit) limit').1
      = reqs b ++ [pretty offset +:+ "-" +:+ pretty (offset + limit);
                   pretty (offset + limit) +:+ "-"
                     +:+ pretty (offset + limit + limit')].
Proof.
  intros Ho Hl Hl' Hfit. rewrite !Hosts_page by lia. simpl.
  eexists _, _. split_and!; try done.
  - do 1 f_equal. rewrite !Z2Nat.inj_add by lia.
    rewrite <- (drop_drop (hosts b)). symmetry. apply take_take_drop.
  - unfold fmtReq. rewrite !int_small by (unfold maxInt in *; lia).
    by rewrite <- (assoc_L (++)).
Qed.

(** The theorem at the first two pages of the test. *)
Lemma Hosts_adjoining_witness :
  ∃ page page',
    (Hosts {| hosts := replicate 100 {| NetAddress := "host"; PublicKey := 1%N |};
              reqs := [] |} 0 40).2 = Some page
    ∧ (Hosts (Hosts {| hosts := replicate 100 {| NetAddress := "host"; PublicKey := 1%N |};
                       reqs := [] |} 0 40).1 (0 + 40) 40).2 = Some page'
    ∧ (Hosts {| hosts := replicate 100 {| NetAddress := "host"; PublicKey := 1%N |};
                reqs := [] |} 0 (40 + 40)).2 = Some (page ++ page').
Proof.
  destruct (Hosts_adjoining
              {| hosts := replicate 100 {| NetAddress := "host"; PublicKey := 1%N |};
                 reqs := [] |} 0 40 40)
    as (page & page' & H1 & H2 & H3 & _).
  - lia.
  - lia.
  - lia.
  - unfold maxInt. lia.
  - exists page, page'. split; [exact H1|]. split; [exact H2 | exact H3].
Defined.

(** Where the sum of an offset within the hosts and a limit runs past the
    largest [int], it wraps around: [Hosts] logs a negative upper bound
    and its slice expression panics. *)
Theorem Hosts_overflow (b : mockBus) (offset limit : Z) :
  0 ≤ offset ≤ Z.of_nat (length (hosts b)) →
  limit ≤ maxInt →
  maxInt < offset + limit →
  Z.of_nat (length (hosts b)) ≤ maxInt →
  (Hosts b offset limit).2 = None
  ∧ reqs (Hosts b offset limit).1
    = reqs b ++ [pretty offset +:+ "-" +:+ pretty (offset + limit - 2 ^ 64)]
  ∧ offset + limit - 2 ^ 64 < 0.
Proof.
  intros Ho Hl Hover Hlen.
  assert (int (offset + limit) = offset + limit - 2 ^ 64) as Hwrap.
  { unfold int, maxInt in *.
    rewrite <- (Z.mod_add _ (-1) (2 ^ 64)) by lia.
    rewrite Z.mod_small; lia. }
  unfold Hosts, logged, fmtReq. rewrite Hwrap.
  rewrite bool_decide_eq_false_2 by lia.
  rewrite (bool_decide_eq_false_2 (offset + limit - 2 ^ 64 > _))
    by (unfold maxInt in *; lia).
  rewrite bool_decide_eq_false_2 by (unfold maxInt in *; lia).
  simpl. split_and!; [done | done | unfold maxInt in *; lia].
Qed.

(** The theorem at offset 1 and the largest limit, with four hosts. *)
Lemma Hosts_overflow_witness :
  (Hosts {| hosts := replicate 4 {| NetAddress := "host"; PublicKey := 1%N |};
            reqs := [] |} 1 maxInt).2 = None
  ∧ reqs (Hosts {| hosts := replicate 4 {| NetAddress := "host"; PublicKey := 1%N |};
                   reqs := [] |} 1 maxInt).1
    = ["1--9223372036854775808"]%string.
Proof.
  destruct (Hosts_overflow
              {| hosts := replicate 4 {| NetAddress := "host"; PublicKey := 1%N |};
                 reqs := [] |} 1 maxInt)
    as (Hnone & Hreqs & _).
  - simpl. lia.
  - lia.
  - unfold maxInt. lia.
  - simpl. unfold maxInt. lia.
  - split; [exact Hnone|]. rewrite Hreqs. vm_compute. reflexivity.
Defined.

(** * Properties of the schema migrations *)

(** Membership in a list that is written out. *)
Ltac list_mem :=
  repeat first [apply list_elem_of_here | apply list_elem_of_further].

Ltac list_cases H :=
  repeat (apply elem_of_cons in H as [H|H]);
  try (by apply elem_of_nil in H);
  try discriminate H;
  try (injection H as ->; reflexivity);
  try (subst; list_mem).

(** A run of commands extends the log by the commands it issued: all of
    them, each answered [nil], when it returns [nil]; those up to and with
    the first one that answered an error, which is the error returned,
    otherwise. *)
Lemma runAll_log {db E} (g : gormDB db E) (cs : list command)
    (s : migration db E) :
  ∃ l, (runAll g cs s).1.2 = s.2 ++ l
    ∧ match (runAll g cs s).2 with
      | None => l.*1 = cs ∧ Forall (λ x, x.2 = None) l
      | Some err =>
          ∃ l0 c cs', l = l0 ++ [(c, Some err)]
            ∧ Forall (λ x, x.2 = None) l0 ∧ cs = l0.*1 ++ c :: cs'
      end.
Proof.
  revert s. induction cs as [|c cs IH]; intros s; simpl.
  - exists []. by rewrite app_nil_r.
  - destruct (exec g s.1 c) as [d' [err|]] eqn:Hexec; simpl.
    + exists [(c, Some err)]. split; [done|]. by exists [], c, cs.
    + destruct (IH (d', s.2 ++ [(c, None)])) as (l & Hlog & Hres).
      exists ((c, None) :: l). simpl in Hlog.
      split; [by rewrite Hlog, <- (assoc_L (++))|].
      destruct (runAll g cs (d', s.2 ++ [(c, None)])).2 as [err|].
      * destruct Hres as (l0 & c' & cs' & -> & Hok & ->).
        exists ((c, None) :: l0), c', cs'. split_and!; [done| |done].
        by constructor.
      * destruct Hres as [<- Hok]. split; [done|]. by constructor.
Qed.

(** The log of [performMigrations], for every database and outcome: the
    commands are a prefix of the four blocks in order, each block decided
    on the database as it was when the block was reached; the whole of
    them, all answered [nil], when the result is [nil]; otherwise the last
    command in the log is the one that answered the error returned, and
    every command before it answered [nil]. *)
Lemma performMigrations_log {db E} (g : gormDB db E) (tx : db) :
  ∃ d1 d3,
    (performMigrations g tx).1.2.*1
      `prefix_of` consensusBlock g tx ++ shardsBlock g d1 ++ mainBlock
                  ++ indexBlock g d3
    ∧ match (performMigrations g tx).2 with
      | None =>
          (performMigrations g tx).1.2.*1
          = consensusBlock g tx ++ shardsBlock g d1 ++ mainBlock
            ++ indexBlock g d3
          ∧ Forall (λ x, x.2 = None) (performMigrations g tx).1.2
      | Some err =>
          ∃ l0 c, (performMigrations g tx).1.2 = l0 ++ [(c, Some err)]
            ∧ Forall (λ x, x.2 = None) l0
      end.
Proof.
  unfold performMigrations, mainBlock. cbv zeta. cbn [fst].
  destruct (runAll_log g (consensusBlock g tx) (tx, @nil (command * option E)))
    as (l1 & L1 & R1).
  destruct (runAll g (consensusBlock g tx) (tx, @nil (command * option E)))
    as [s1 [e1|]]; cbn [fst snd] in *; rewrite app_nil_l in L1.
  { destruct R1 as (l0 & c & cs' & -> & Hok & Hcs). exists tx, tx.
    rewrite L1, Hcs. split.
    - rewrite fmap_app; simpl. rewrite <- !(assoc_L (++)).
      apply prefix_app, prefix_cons, prefix_nil.
    - by exists l0, c. }
  destruct R1 as [C1 O1].
  destruct (runAll_log g (shardsBlock g s1.1) s1) as (l2 & L2 & R2).
  destruct (runAll g (shardsBlock g s1.1) s1) as [s2 [e2|]]; cbn [fst snd] in *.
  { destruct R2 as (l0 & c & cs' & -> & Hok & Hcs). exists s1.1, tx.
    rewrite L2, L1, Hcs, !fmap_app, C1; simpl. split.
    - rewrite <- !(assoc_L (++)).
      apply prefix_app, prefix_app, prefix_cons, prefix_nil.
    - exists (l1 ++ l0), c. split; [by rewrite (assoc_L (++))|].
      by apply Forall_app. }
  destruct R2 as [C2 O2].
  destruct (runAll_log g [AutoMigrate tables; DropTable (tableNamed "host_sectors")]
              s2) as (l3 & L3 & R3).
  destruct (runAll g [AutoMigrate tables; DropTable (tableNamed "host_sectors")] s2)
    as [s3 [e3|]]; cbn [fst snd] in *.
  { destruct R3 as (l0 & c & cs' & -> & Hok & Hcs). exists s1.1, tx.
    rewrite L3, L2, L1, !fmap_app, C1, C2, Hcs; simpl. split.
    - rewrite <- !(assoc_L (++)).
      apply prefix_app, prefix_app, prefix_app, prefix_cons, prefix_nil.
    - exists (l1 ++ l2 ++ l0), c. split; [by rewrite <- !(assoc_L (++))|].
      by rewrite !Forall_app. }
  destruct R3 as [C3 O3].
  destruct (runAll_log g (indexBlock g s3.1) s3) as (l4 & L4 & R4).
  destruct (runAll g (indexBlock g s3.1) s3) as [s4 [e4|]]; cbn [fst snd] in *.
  { destruct R4 as (l0 & c & cs' & -> & Hok & Hcs). exists s1.1, s3.1.
    rewrite L4, L3, L2, L1, !fmap_app, C1, C2, C3; simpl. split.
    - rewrite Hcs, <- !(assoc_L (++)); simpl.
      do 2 apply prefix_app. do 2 apply prefix_cons.
      apply prefix_app, prefix_cons, prefix_nil.
    - exists (l1 ++ l2 ++ l3 ++ l0), c.
      split; [by rewrite <- !(assoc_L (++))|]. by rewrite !Forall_app. }
  destruct R4 as [C4 O4]. exists s1.1, s3.1.
  rewrite L4, L3, L2, L1, !fmap_app, C1, C2, C3, C4; simpl.
  rewrite <- !(assoc_L (++)); simpl. split_and!; [done|done|].
  by rewrite !Forall_app.
Qed.

(** [performMigrations] returns the first error a command answers and
    issues nothing after it: when it returns an error, the last command in
    the log answered that error and all before it answered [nil]; when it
    returns [nil], every command issued answered [nil]. *)
Theorem performMigrations_first_error {db E} (g : gormDB db E) (tx : db) :
  match (performMigrations g tx).2 with
  | Some err =>
      ∃ l0 c, (performMigrations g tx).1.2 = l0 ++ [(c, Some err)]
        ∧ Forall (λ x, x.2 = None) l0
  | None => Forall (λ x, x.2 = None) (performMigrations g tx).1.2
  end.
Proof.
  destruct (performMigrations_log g tx) as (d1 & d3 & _ & H).
  destruct (performMigrations g tx).2; [done|]. by destruct H.
Qed.

(** What a run does to the database and what it answers do not depend on
    the commands logged before it. *)
Lemma runAll_state {db E} (g : gormDB db E) (cs : list command) (d : db)
    (log : list (command * option E)) :
  runAll g cs (d, log)
  = ((dbAfter g cs d, log ++ (runAll g cs (d, [])).1.2),
     (runAll g cs (d, [])).2).
Proof.
  unfold dbAfter. revert d log. induction cs as [|c cs IH]; intros d log; simpl.
  - by rewrite app_nil_r.
  - destruct (exec g d c) as [d' [err|]]; simpl; [done|].
    rewrite (IH d' (log ++ [(c, None)])), (IH d' [(c, None)]); simpl.
    by rewrite <- (assoc_L (++)).
Qed.

(** A successful [performMigrations] has issued, in this order: the drop
    of the consensus-info table if the table was there without a height
    column at the start; the six commands that fold the shards table into
    slices and sectors if that table was there in the database the first
    block left; [AutoMigrate] of the seventeen tables and the drop of
    [host_sectors]; the creation of the host-id index if it was missing in
    the database those two left.  The database returned is the one the
    last block left. *)
Theorem performMigrations_success {db E} (g : gormDB db E) (tx : db) :
  (performMigrations g tx).2 = None →
  let d1 := dbAfter g (consensusBlock g tx) tx in
  let d2 := dbAfter g (shardsBlock g d1) d1 in
  let d3 := dbAfter g [AutoMigrate tables;
                       DropTable (tableNamed "host_sectors")] d2 in
  (performMigrations g tx).1.2.*1
  = consensusBlock g tx ++ shardsBlock g d1
    ++ [AutoMigrate tables; DropTable (tableNamed "host_sectors")]
    ++ indexBlock g d3
  ∧ (performMigrations g tx).1.1 = dbAfter g (indexBlock g d3) d3.
Proof.
  assert (∀ cs d l r, runAll g cs (d, []) = (l, r) →
            l.1 = dbAfter g cs d ∧ (r = None → l.2.*1 = cs)) as Hrun.
  { intros cs d l r Hr. unfold dbAfter. rewrite Hr. split; [done|].
    intros ->. destruct (runAll_log g cs (d, [])) as (l' & Hl & Hres).
    rewrite Hr in Hl, Hres; simpl in Hl, Hres.
    destruct Hres as [<- _]. by rewrite Hl. }
  cbv zeta. unfold performMigrations. cbv zeta. cbn [fst].
  destruct (runAll g (consensusBlock g tx) (tx, [])) as [[d1 l1] r1] eqn:E1.
  apply Hrun in E1 as [D1 C1]. cbn [fst snd] in *. subst d1.
  destruct r1 as [e1|]; [done|]. specialize (C1 eq_refl).
  rewrite runAll_state.
  destruct (runAll g (shardsBlock g (dbAfter g (consensusBlock g tx) tx))
              (dbAfter g (consensusBlock g tx) tx, [])) as [[d2 l2] r2] eqn:E2.
  pose proof (Hrun _ _ _ _ E2) as [D2 C2]. cbn [fst snd] in *.
  destruct r2 as [e2|]; [done|]. specialize (C2 eq_refl).
  rewrite runAll_state.
  destruct (runAll g [AutoMigrate tables; DropTable (tableNamed "host_sectors")]
              (dbAfter g (shardsBlock g (dbAfter g (consensusBlock g tx) tx))
                 (dbAfter g (consensusBlock g tx) tx), []))
    as [[d3 l3] r3] eqn:E3.
  pose proof (Hrun _ _ _ _ E3) as [D3 C3]. cbn [fst snd] in *.
  destruct r3 as [e3|]; [done|]. specialize (C3 eq_refl).
  rewrite runAll_state.
  match goal with
  | |- context [runAll g ?cs (?d, [])] =>
      destruct (runAll g cs (d, [])) as [[d4 l4] r4] eqn:E4
  end.
  pose proof (Hrun _ _ _ _ E4) as [D4 C4]. cbn [fst snd] in *.
  intros ->. specialize (C4 eq_refl).
  split.
  - rewrite !fmap_app, C1, C2, C3, C4. by rewrite <- !(assoc_L (++)).
  - unfold dbAfter at 1. by rewrite E4.
Qed.

(** The theorem at a database that holds the shards table, which the run
    drops. *)
Lemma performMigrations_success_witness :
  (performMigrations (toyDB false) ["shards"; "slabs"]%string).2 = None
  ∧ (performMigrations (toyDB false) ["shards"; "slabs"]%string).1.2.*1
    = [AddColumn dbSlice "db_slab_id"; Exec updateSlices;
       AddColumn dbSector "db_slab_id"; Exec updateSectors;
       DropColumn dbSlab "db_slice_id"; DropTable (tableNamed "shards");
       AutoMigrate tables; DropTable (tableNamed "host_sectors");
       CreateIndex dbHostBlocklistEntryHost "DBHostID"]
  ∧ (performMigrations (toyDB false) ["shards"; "slabs"]%string).1.1
    = ["slabs"]%string.
Proof.
  split; [reflexivity|].
  destruct (performMigrations_success (toyDB false) ["shards"; "slabs"]%string)
    as [Hlog Hdb].
  - reflexivity.
  - split; [rewrite Hlog | rewrite Hdb]; vm_compute; reflexivity.
Defined.

(** What [performMigrations] never does, whatever the database answers: it
    issues no command outside its ten; it drops the consensus-info table
    only if that table was there without a height column when the
    migration began; it hands [AutoMigrate] nothing but its list of
    tables; and when no shards table is ever reported, it adds or drops no
    column and executes no statement. *)
Theorem performMigrations_never {db E} (g : gormDB db E) (tx : db) :
  (∀ c, c ∈ (performMigrations g tx).1.2.*1 →
     c ∈ [DropTable dbConsensusInfo;
          AddColumn dbSlice "db_slab_id"; Exec updateSlices;
          AddColumn dbSector "db_slab_id"; Exec updateSectors;
          DropColumn dbSlab "db_slice_id"; DropTable (tableNamed "shards");
          AutoMigrate tables; DropTable (tableNamed "host_sectors");
          CreateIndex dbHostBlocklistEntryHost "DBHostID"])
  ∧ (DropTable dbConsensusInfo ∈ (performMigrations g tx).1.2.*1 →
     has g tx (HasTable dbConsensusInfo) = true
     ∧ has g tx (HasColumn dbConsensusInfo "height") = false)
  ∧ (∀ ts, AutoMigrate ts ∈ (performMigrations g tx).1.2.*1 → ts = tables)
  ∧ ((∀ d, has g d (HasTable (tableNamed "shards")) = false) →
     ∀ c, c ∈ (performMigrations g tx).1.2.*1 →
       c ∈ [DropTable dbConsensusInfo; AutoMigrate tables;
            DropTable (tableNamed "host_sectors");
            CreateIndex dbHostBlocklistEntryHost "DBHostID"]).
Proof.
  destruct (performMigrations_log g tx) as (d1 & d3 & Hpre & _).
  assert (∀ c, c ∈ (performMigrations g tx).1.2.*1 →
            c ∈ consensusBlock g tx ∨ c ∈ shardsBlock g d1
            ∨ c ∈ mainBlock ∨ c ∈ indexBlock g d3) as Hin.
  { intros c Hc. destruct Hpre as [k Hk].
    assert (c ∈ consensusBlock g tx ++ shardsBlock g d1 ++ mainBlock
                ++ indexBlock g d3) as Hc'
      by (rewrite Hk; apply elem_of_app; by left).
    by rewrite !elem_of_app in Hc'. }
  assert (∀ c, c ∈ consensusBlock g tx →
            c = DropTable dbConsensusInfo
            ∧ has g tx (HasTable dbConsensusInfo) = true
            ∧ has g tx (HasColumn dbConsensusInfo "height") = false) as Hcons.
  { intros c. unfold consensusBlock.
    destruct (has g tx (HasTable dbConsensusInfo)); simpl;
      [|by intros ?%elem_of_nil].
    destruct (has g tx (HasColumn dbConsensusInfo "height")); simpl;
      [by intros ?%elem_of_nil|].
    by intros ->%list_elem_of_singleton. }
  assert (∀ c, c ∈ shardsBlock g d1 →
            has g d1 (HasTable (tableNamed "shards")) = true
            ∧ c ∈ [AddColumn dbSlice "db_slab_id"; Exec updateSlices;
                   AddColumn dbSector "db_slab_id"; Exec updateSectors;
                   DropColumn dbSlab "db_slice_id";
                   DropTable (tableNamed "shards")]) as Hsh.
  { intros c. unfold shardsBlock.
    destruct (has g d1 (HasTable (tableNamed "shards")));
      [done | by intros ?%elem_of_nil]. }
  assert (∀ c, c ∈ indexBlock g d3 →
            c = CreateIndex dbHostBlocklistEntryHost "DBHostID") as Hidx.
  { intros c. unfold indexBlock.
    destruct (has g d3 (HasIndex dbHostBlocklistEntryHost "DBHostID")); simpl;
      [by intros ?%elem_of_nil | by intros ->%list_elem_of_singleton]. }
  split_and!.
  - intros c [Hc|[Hc|[Hc|Hc]]]%Hin.
    + apply Hcons in Hc as (-> & _). list_mem.
    + apply Hsh in Hc as [_ Hc]. list_cases Hc.
    + unfold mainBlock in Hc. list_cases Hc.
    + apply Hidx in Hc as ->. list_mem.
  - intros [Hc|[Hc|[Hc|Hc]]]%Hin.
    + by apply Hcons in Hc as (_ & ? & ?).
    + apply Hsh in Hc as [_ Hc]. list_cases Hc.
    + unfold mainBlock in Hc. list_cases Hc.
    + by apply Hidx in Hc.
  - intros ts [Hc|[Hc|[Hc|Hc]]]%Hin.
    + by apply Hcons in Hc as (? & _).
    + apply Hsh in Hc as [_ Hc]. list_cases Hc.
    + unfold mainBlock in Hc. list_cases Hc.
    + by apply Hidx in Hc.
  - intros Hno c [Hc|[Hc|[Hc|Hc]]]%Hin.
    + apply Hcons in Hc as (-> & _). list_mem.
    + apply Hsh in Hc as [Hc _]. by rewrite Hno in Hc.
    + unfold mainBlock in Hc. list_cases Hc.
    + apply Hidx in Hc as ->. list_mem.
Qed.
